(** * GeeRPC: a shallow embedding of the RPC runtime

    The development follows the Go sources package by package:
    - the token-bucket admitter and the request loop of the server,
    - service lookup ([findService]),
    - the client's [Close] and the HTTP dial factory,
    - the load-balancing client ([Broadcast]),
    - local discovery ([MultiServersDiscovery.Get]),
    - the registry ([aliveServers], [ServeHTTP]).

    Conventions.  Go's [int] and [time.Duration] are 64-bit two's-complement
    integers, embedded as [Z] with the wrap-around written out ([wrap64]).
    Instants of the monotonic clock are nanosecond counts in [Z]; every
    [time.Now()] of the source is an explicit clock reading passed to the
    embedded function.  A run-time panic is the result [None]. *)

From Stdlib Require Import Ascii String.
From stdpp Require Import base numbers list strings gmap sorting relations.

Open Scope string_scope.
Open Scope list_scope.
Open Scope Z_scope.

(** ** Machine integers *)

Definition min_int64 : Z := - 2 ^ 63.
Definition max_int64 : Z := 2 ^ 63 - 1.

Definition int64 (z : Z) : Prop := min_int64 <= z <= max_int64.

(** Reduction of a mathematical result to the 64-bit signed range. *)
Definition wrap64 (z : Z) : Z := (z + 2 ^ 63) mod 2 ^ 64 - 2 ^ 63.
Arguments wrap64 z : simpl never.

Definition add64 (a b : Z) : Z := wrap64 (a + b).
Definition sub64 (a b : Z) : Z := wrap64 (a - b).
Definition mul64 (a b : Z) : Z := wrap64 (a * b).
(** Go's [/] truncates toward zero; the caller rules out a zero divisor. *)
Definition quo64 (a b : Z) : Z := wrap64 (Z.quot a b).
(** Go's [%] has the sign of the dividend. *)
Definition rem64 (a b : Z) : Z := wrap64 (Z.rem a b).

(** ** Time *)

Definition Time := Z.
Definition Duration := Z.

Definition second : Duration := 1000000000.

(** [t.Sub(u)]: the difference, saturated to the range of [Duration]. *)
Definition Time_Sub (t u : Time) : Duration :=
  Z.max min_int64 (Z.min max_int64 (t - u)).

(** ** The token bucket (server) *)

Record TokenBucket := mkTokenBucket {
  tokens : Z;
  capacity : Z;
  refillAmount : Z;
  refillInterval : Duration;
  lastRefill : Time
}.

Definition NewTokenBucket (capacity refillAmount : Z) (refillInterval : Duration)
    (now : Time) : TokenBucket :=
  {| tokens := capacity;
     capacity := capacity;
     refillAmount := refillAmount;
     refillInterval := refillInterval;
     lastRefill := now |}.

(** [int(now.Sub(tb.lastRefill) / tb.refillInterval) * tb.refillAmount] *)
Definition tokensToAdd (tb : TokenBucket) (now : Time) : Z :=
  mul64 (quo64 (Time_Sub now (lastRefill tb)) (refillInterval tb)) (refillAmount tb).

(** The refill half of [Allow]. *)
Definition refill (tb : TokenBucket) (now : Time) : TokenBucket :=
  let tokensToAdd := tokensToAdd tb now in
  if 0 <? tokensToAdd then
    let tokens1 := add64 (tokens tb) tokensToAdd in
    let tokens2 := if capacity tb <? tokens1 then capacity tb else tokens1 in
    {| tokens := tokens2;
       capacity := capacity tb;
       refillAmount := refillAmount tb;
       refillInterval := refillInterval tb;
       lastRefill := now |}
  else tb.

(** [Allow] at clock reading [now]; [None] is the division-by-zero panic of a
    zero [refillInterval] (the bucket is then left as it was). *)
Definition Allow (tb : TokenBucket) (now : Time) : option (bool * TokenBucket) :=
  if refillInterval tb =? 0 then None
  else
    let tb1 := refill tb now in
    if 0 <? tokens tb1 then
      Some (true,
            {| tokens := sub64 (tokens tb1) 1;
               capacity := capacity tb1;
               refillAmount := refillAmount tb1;
               refillInterval := refillInterval tb1;
               lastRefill := lastRefill tb1 |})
    else Some (false, tb1).

(** The bound the bucket is meant to keep. *)
Definition bucket_inv (tb : TokenBucket) : Prop :=
  0 <= tokens tb <= capacity tb.

(** A bucket with the parameters [(C, R, I)] that keeps the bound. *)
Definition bucket_of (C R : Z) (I : Duration) (tb : TokenBucket) : Prop :=
  capacity tb = C ∧ refillAmount tb = R ∧ refillInterval tb = I ∧ bucket_inv tb.

(** A sequence of [Allow] calls at the given clock readings, with the reading
    and the answer of each call; a panic ends the sequence. *)
Fixpoint allow_run (tb : TokenBucket) (clock : list Time) : list (Time * bool) :=
  match clock with
  | [] => []
  | now :: clock' =>
      match Allow tb now with
      | None => []
      | Some (ok, tb') => (now, ok) :: allow_run tb' clock'
      end
  end.

(** The bucket after a sequence of calls. *)
Fixpoint allow_state (tb : TokenBucket) (clock : list Time) : TokenBucket :=
  match clock with
  | [] => tb
  | now :: clock' =>
      match Allow tb now with
      | None => tb
      | Some (_, tb') => allow_state tb' clock'
      end
  end.

(** Calls answered [true] whose reading lies in the window [[a, a + T]]. *)
Definition in_window (a T : Z) (c : Time * bool) : bool :=
  c.2 && (a <=? c.1) && (c.1 <=? a + T).

Definition accepted_in (a T : Z) (log : list (Time * bool)) : Z :=
  Z.of_nat (length (filter (λ c, in_window a T c = true) log)).

(** ** Strings and errors *)

(** An [error] is represented by its message ([err.Error()]). *)
Definition error := string.

Definition errors_New (msg : string) : error := msg.

Definition dot : ascii := "."%char.
Definition LF : string := String (ascii_of_nat 10) EmptyString.
Definition CR : string := String (ascii_of_nat 13) EmptyString.

Fixpoint LastIndexByte_from (s : string) (c : ascii) (i last : Z) : Z :=
  match s with
  | EmptyString => last
  | String a s' =>
      LastIndexByte_from s' c (i + 1) (if Ascii.eqb a c then i else last)
  end.

(** [strings.LastIndex(s, sep)] for a one-byte separator: the index of the
    last occurrence of [c] in [s], or -1. *)
Definition LastIndex (s : string) (c : ascii) : Z :=
  LastIndexByte_from s c 0 (-1).

(** The slices [s[:n]] and [s[n:]]. *)
Fixpoint slice_to (n : nat) (s : string) : string :=
  match n, s with
  | S n', String a s' => String a (slice_to n' s')
  | _, _ => EmptyString
  end.

Fixpoint slice_from (n : nat) (s : string) : string :=
  match n, s with
  | S n', String _ s' => slice_from n' s'
  | _, _ => s
  end.

Fixpoint has_byte (c : ascii) (s : string) : bool :=
  match s with
  | EmptyString => false
  | String a s' => Ascii.eqb a c || has_byte c s'
  end.

(** [name] is [serviceName], a dot and [methodName], the dot being the last
    one of [name]. *)
Definition dotted (name serviceName methodName : string) : Prop :=
  name = serviceName +:+ "." +:+ methodName ∧ has_byte dot methodName = false.

(** [strings.Contains(s, sub)], as a proposition. *)
Definition Contains (s sub : string) : Prop :=
  ∃ l r : string, s = l +:+ sub +:+ r.

(** [strings.Join(elems, sep)] *)
Fixpoint Join (elems : list string) (sep : string) : string :=
  match elems with
  | [] => ""
  | [x] => x
  | x :: rest => x +:+ sep +:+ Join rest sep
  end.

(** Byte-wise lexicographic order, the order of [sort.Strings]. *)
Definition string_le (s1 s2 : string) : Prop := String.leb s1 s2 = true.

#[global] Instance string_le_dec s1 s2 : Decision (string_le s1 s2).
Proof. unfold string_le. apply _. Defined.

(** [sort.Strings] *)
Definition sort_Strings (l : list string) : list string :=
  merge_sort string_le l.

(** [l[i]] with Go's bounds check. *)
Definition go_index {A} (l : list A) (i : Z) : option A :=
  if i <? 0 then None else l !! Z.to_nat i.

(** [len(l)] *)
Definition len {A} (l : list A) : Z := Z.of_nat (length l).

(** ** Codec *)

Record Header := mkHeader {
  ServiceMethod : string;
  Seq : Z;
  Error : string
}.

Definition set_Error (h : Header) (msg : string) : Header :=
  {| ServiceMethod := ServiceMethod h; Seq := Seq h; Error := msg |}.

(** What is handed to [Write] as the body ([interface{}]): the placeholder
    [invalidRequest] ([struct{}{}]), a string, or a reply value. *)
Inductive Body (Value : Type) :=
  | invalidRequest
  | BodyString (s : string)
  | BodyValue (v : Value).
Arguments invalidRequest {Value}.
Arguments BodyString {Value} s.
Arguments BodyValue {Value} v.

(** The [Codec] interface over a codec state [C]; each method returns the
    state it leaves behind. [ReadBody] is given the container to decode into
    and returns it as the decoder left it. *)
Class Codec (Value C : Type) := {
  ReadHeader : C → C * (Header + error);
  ReadBody : C → Value → C * Value * option error;
  Write : C → Header → Body Value → C * option error;
  Close : C → C * option error
}.

(** ** Services

    [service] and [methodType] are declared outside the files at hand; the
    server code reads the method table [method] of a service and the two
    constructors of a method type. *)

(** Modelled from the spec: [methodType], "{name, argType, replyType,
    numCalls}" with "newArgv() and newReplyv() returning zeroed containers";
    the types are represented by the containers they produce. *)
Record methodType (Value : Type) := mkMethodType {
  mname : string;
  newArgv : Value;
  newReplyv : Value;
  numCalls : Z
}.
Arguments mname {Value}.
Arguments newArgv {Value}.
Arguments newReplyv {Value}.
Arguments numCalls {Value}.

(** Modelled from the spec: [service], "{name, receiver, methodMap:
    map<string, MethodType>}"; the receiver plays no part in lookup. The
    table holds no nil entry. *)
Record service (Value : Type) := mkService {
  sname : string;
  method : gmap string (methodType Value)
}.
Arguments sname {Value}.
Arguments method {Value}.

Record Server (Value : Type) := mkServer {
  serviceMap : gmap string (service Value)
}.
Arguments serviceMap {Value}.

Record Option := mkOption {
  MagicNumber : Z;
  CodecType : string;
  ConnectTimeout : Duration;
  HandleTimeout : Duration
}.

Record request (Value : Type) := mkRequest {
  h : Header;
  argv : option Value;
  replyv : option Value;
  mtype : option (methodType Value);
  svc : option (service Value)
}.
Arguments h {Value}.
Arguments argv {Value}.
Arguments replyv {Value}.
Arguments mtype {Value}.
Arguments svc {Value}.

Section server.
Context {Value C : Type} `{!Codec Value C}.

(** [findService]: the triple [(svc, mtype, err)]. *)
Definition findService (server : Server Value) (serviceMethod : string)
    : option (service Value) * option (methodType Value) * option error :=
  let dot := LastIndex serviceMethod dot in
  if dot <? 0 then
    (None, None,
     Some (errors_New ("rpc server: service/method request ill-formed: " +:+ serviceMethod)))
  else
    let serviceName := slice_to (Z.to_nat dot) serviceMethod in
    let methodName := slice_from (Z.to_nat (dot + 1)) serviceMethod in
    match serviceMap server !! serviceName with
    | None =>
        (None, None, Some (errors_New ("rpc server: can't find service " +:+ serviceName)))
    | Some svc =>
        match method svc !! methodName with
        | None =>
            (Some svc, None,
             Some (errors_New ("rpc server: can't find method " +:+ methodName)))
        | Some mtype => (Some svc, Some mtype, None)
        end
    end.

Definition readRequestHeader (cc : C) : C * (Header + error) := ReadHeader cc.

(** [readRequest]: the codec afterwards and the pair [(req, err)]; [None]
    is the nil dereference of [req.mtype.newArgv()]. *)
Definition readRequest (server : Server Value) (cc : C)
    : option (C * option (request Value) * option error) :=
  match readRequestHeader cc with
  | (cc1, inr err) => Some (cc1, None, Some err)
  | (cc1, inl h) =>
      match findService server (ServiceMethod h) with
      | (svc, mtype, Some err) =>
          Some (cc1, Some (mkRequest Value h None None mtype svc), Some err)
      | (svc, None, None) => None
      | (svc, Some mt, None) =>
          let argv := newArgv mt in
          let replyv := newReplyv mt in
          let '(cc2, argv', err) := ReadBody cc1 argv in
          Some (cc2, Some (mkRequest Value h (Some argv') (Some replyv) (Some mt) svc), err)
      end
  end.

(** [sendResponse]: the write error is logged and dropped. *)
Definition sendResponse (cc : C) (h : Header) (body : Body Value) : C :=
  (Write cc h body).1.

(** What the request loop owns: the codec, the admitter and the workers
    launched so far (each [wg.Add(1); go handleRequest(...)] appends the
    request and the handle timeout). The workers themselves run
    concurrently and are not part of the loop. Logging is left out. *)
Record conn := mkConn {
  cc : C;
  tb : TokenBucket;
  workers : list (option (request Value) * Duration)
}.

Inductive iter :=
  | Continue (st : conn)
  | Break (st : conn)
  | Panic.

(** One iteration of the [for] loop of [serveCodec] at clock reading [now]. *)
Definition serveCodec_iter (server : Server Value) (opt : Option) (st : conn)
    (now : Time) : iter :=
  match Allow (tb st) now with
  | None => Panic
  | Some (false, tb') =>
      let cc' :=
        sendResponse (cc st) (mkHeader "" 0 "") (BodyString "rate limit exceeded") in
      Continue (mkConn cc' tb' (workers st))
  | Some (true, tb') =>
      match readRequest server (cc st) with
      | None => Panic
      | Some (cc1, req, Some err) =>
          match req with
          | None => Break (mkConn cc1 tb' (workers st))
          | Some req =>
              let h' := set_Error (h req) err in
              let cc2 := sendResponse cc1 h' invalidRequest in
              Continue (mkConn cc2 tb' (workers st))
          end
      | Some (cc1, req, None) =>
          Continue (mkConn cc1 tb' (workers st ++ [(req, HandleTimeout opt)]))
      end
  end.

Inductive served :=
  | Closed (st : conn)
  | Running (st : conn)
  | Panicked.

(** The loop, one iteration per clock reading; [Running] when the readings
    are used up before the loop ends. After the loop the codec is closed. *)
Fixpoint serveCodec_loop (server : Server Value) (opt : Option) (st : conn)
    (clock : list Time) : served :=
  match clock with
  | [] => Running st
  | now :: clock' =>
      match serveCodec_iter server opt st now with
      | Continue st' => serveCodec_loop server opt st' clock'
      | Break st' => Closed (mkConn (Close (cc st')).1 (tb st') (workers st'))
      | Panic => Panicked
      end
  end.

(** [serveCodec]; [start] is the reading of the clock when the bucket is
    made. *)
Definition serveCodec (server : Server Value) (cc : C) (opt : Option)
    (start : Time) (clock : list Time) : served :=
  let tb := NewTokenBucket 10 2 second start in
  serveCodec_loop server opt (mkConn cc tb []) clock.
End server.

(** ** A scripted peer

    A codec whose reads are the items of a script and whose writes are kept in
    order; it stands for the remote end when the loop is run on a concrete
    connection. *)

Inductive incoming (Value : Type) :=
  | InHeader (h : Header)
  | InBody (v : Value)
  | InError (e : error).
Arguments InHeader {Value} h.
Arguments InBody {Value} v.
Arguments InError {Value} e.

Record script (Value : Type) := mkScript {
  to_read : list (incoming Value);
  written : list (Header * Body Value);
  closes : nat
}.
Arguments to_read {Value}.
Arguments written {Value}.
Arguments closes {Value}.

Definition io_EOF : error := "EOF".

#[global] Instance script_codec (Value : Type) : Codec Value (script Value) := {|
  ReadHeader s :=
    match to_read s with
    | [] => (s, inr io_EOF)
    | InHeader h :: rest => (mkScript Value rest (written s) (closes s), inl h)
    | InBody _ :: rest => (mkScript Value rest (written s) (closes s), inr "type mismatch")
    | InError e :: rest => (mkScript Value rest (written s) (closes s), inr e)
    end;
  ReadBody s argv :=
    match to_read s with
    | [] => (s, argv, Some io_EOF)
    | InBody v :: rest => (mkScript Value rest (written s) (closes s), v, None)
    | InHeader _ :: rest =>
        (mkScript Value rest (written s) (closes s), argv, Some "type mismatch")
    | InError e :: rest => (mkScript Value rest (written s) (closes s), argv, Some e)
    end;
  Write s h body := (mkScript Value (to_read s) (written s ++ [(h, body)]) (closes s), None);
  Close s := (mkScript Value (to_read s) (written s) (S (closes s)), None)
|}.

(** A sample server with one service [Svc] and one method [Echo] over
    integer arguments, and the frames of a well-formed request to it. *)
Definition Echo : methodType Z := mkMethodType Z "Echo" 0 0 0.
Definition Svc : service Z := mkService Z "Svc" {[ "Echo" := Echo ]}.
Definition sample_server : Server Z := mkServer Z {[ "Svc" := Svc ]}.

Definition MagicNumber_geerpc : Z := 0x3bef5c.
Definition GobType : string := "application/gob".

(** [DefaultOption] *)
Definition DefaultOption : Option :=
  mkOption MagicNumber_geerpc GobType (10 * second) 0.

Definition echo_request (seq arg : Z) : list (incoming Z) :=
  [InHeader (mkHeader "Svc.Echo" seq ""); InBody arg].

Definition peer (frames : list (incoming Z)) : script Z := mkScript Z frames [] 0.

(** The frames of two requests, the body of the first one broken. *)
Definition broken_then_good : list (incoming Z) :=
  [InHeader (mkHeader "Svc.Echo" 1 ""); InError "gob: bad body"] ++ echo_request 2 7.

(** Eleven requests, all on the wire before the first second is over. *)
Definition eleven_requests : list (incoming Z) :=
  flat_map (λ i, echo_request i i) [1; 2; 3; 4; 5; 6; 7; 8; 9; 10; 11].

(** ** Client *)

Record Call (Value : Type) := mkCall {
  call_Seq : Z;
  call_ServiceMethod : string;
  Args : Value;
  Reply : option Value;
  call_Error : option error
}.

Record Client (Value C : Type) := mkClient {
  client_cc : C;
  opt : Option;
  seq : Z;
  pending : gmap Z (Call Value);
  closing : bool;
  shutdown : bool
}.
Arguments client_cc {Value C}.
Arguments opt {Value C}.
Arguments seq {Value C}.
Arguments pending {Value C}.
Arguments closing {Value C}.
Arguments shutdown {Value C}.

Definition ErrShutdown : error := errors_New "connection is shut down".

Section client.
Context {Value C : Type} `{!Codec Value C}.

(** [Client.Close]: the client afterwards and the returned error. *)
Definition Client_Close (client : Client Value C) : Client Value C * option error :=
  if closing client then (client, Some ErrShutdown)
  else
    let '(cc', err) := Close (client_cc client) in
    (mkClient Value C cc' (opt client) (seq client) (pending client) true
       (shutdown client), err).

Definition IsAvailable (client : Client Value C) : bool :=
  negb (shutdown client) && negb (closing client).

(** The client after [n] further calls of [Close], with what each returned. *)
Fixpoint Close_times (n : nat) (client : Client Value C)
    : Client Value C * list (option error) :=
  match n with
  | O => (client, [])
  | S n' =>
      let '(client1, err) := Client_Close client in
      let '(client2, errs) := Close_times n' client1 in
      (client2, err :: errs)
  end.
End client.

(** ** The HTTP dial factory *)

(** Modelled from the spec: the constant [defaultRPCPath], "RPC path (default
    /_geerpc_)". *)
Definition defaultRPCPath : string := "/_geerpc_".

(** Modelled from the spec: the constant [connected], the status "200
    Connected to Gee RPC". *)
Definition connected : string := "200 Connected to Gee RPC".

Record Response := mkResponse { Status : string }.

(** A connection as the factory sees it: the bytes written to it so far and
    what [http.ReadResponse] makes of the peer's answer. *)
Record Conn := mkNetConn {
  sent : string;
  answer : Response + error
}.

Definition io_WriteString (conn : Conn) (s : string) : Conn :=
  mkNetConn (sent conn +:+ s) (answer conn).

Definition http_ReadResponse (conn : Conn) : Response + error := answer conn.

Section dial.
Context {ClientT : Type}.
(** [NewClient], the raw factory, is declared outside the files at hand. *)
Variable NewClient : Conn → Option → option ClientT * option error.

(** [NewHTTPClient]: the connection afterwards and the pair [(client, err)]. *)
Definition NewHTTPClient (conn : Conn) (opt : Option)
    : Conn * (option ClientT * option error) :=
  let conn1 :=
    io_WriteString conn ("CONNECT " +:+ defaultRPCPath +:+ " HTTP/1.0" +:+ LF +:+ LF) in
  match http_ReadResponse conn1 with
  | inl resp =>
      if decide (Status resp = connected) then (conn1, NewClient conn1 opt)
      else (conn1, (None, Some (errors_New ("unexpected HTTP response: " +:+ Status resp))))
  | inr err => (conn1, (None, Some err))
  end.
End dial.

(** A raw factory that always makes the client [tt], and a peer that answers
    with the given status. *)
Definition unit_NewClient (conn : Conn) (opt : Option) : option unit * option error :=
  (Some tt, None).

Definition answering (status : string) : Conn :=
  mkNetConn "" (inl (mkResponse status)).

(** ** The load-balancing client and discovery (package xclient) *)

Module xclient.

(** [SelectMode] is an [int] with two named values. *)
Definition SelectMode := Z.
Definition RandomSelect : SelectMode := 0.
Definition RoundRobinSelect : SelectMode := 1.

Definition MaxInt32 : Z := 2 ^ 31 - 1.

Record MultiServersDiscovery (Rand : Type) := mkDiscovery {
  r : Rand;
  servers : list string;
  index : Z
}.
Arguments r {Rand}.
Arguments servers {Rand}.
Arguments index {Rand}.

Section discovery.
Context {Rand : Type}.
(** [d.r.Intn]: the drawn number and the generator afterwards. *)
Variable Intn : Rand → Z → Z * Rand.

Definition NewMultiServerDiscovery (servers : list string) (r0 : Rand)
    : MultiServersDiscovery Rand :=
  let '(i, r1) := Intn r0 (MaxInt32 - 1) in
  mkDiscovery Rand r1 servers i.

Definition Update (d : MultiServersDiscovery Rand) (servers : list string)
    : MultiServersDiscovery Rand :=
  mkDiscovery Rand (r d) servers (index d).

(** [Get]: the pair [(server, err)] and the discovery afterwards; [None]
    is the panic of an index out of range. *)
Definition Get (d : MultiServersDiscovery Rand) (mode : SelectMode)
    : option (string * option error * MultiServersDiscovery Rand) :=
  let n := len (servers d) in
  if n =? 0 then Some ("", Some (errors_New "rpc discovery: no available servers"), d)
  else if mode =? RandomSelect then
    let '(i, r1) := Intn (r d) n in
    match go_index (servers d) i with
    | None => None
    | Some s => Some (s, None, mkDiscovery Rand r1 (servers d) (index d))
    end
  else if mode =? RoundRobinSelect then
    match go_index (servers d) (rem64 (index d) n) with
    | None => None
    | Some s =>
        Some (s, None,
              mkDiscovery Rand (r d) (servers d) (rem64 (add64 (index d) 1) n))
    end
  else Some ("", Some (errors_New "rpc discovery: not supported select mode"), d).

(** A discovery as the program can hold it: some server, a length that is
    an [int], and an index that is not negative and can be incremented. *)
Definition usable (d : MultiServersDiscovery Rand) : Prop :=
  servers d ≠ [] ∧ len (servers d) <= max_int64 ∧ 0 <= index d < max_int64.

(** [GetAll] returns a copy of the list. *)
Definition GetAll (d : MultiServersDiscovery Rand) : list string + error :=
  inl (servers d).

(** [k] consecutive calls [Get(mode)], with the servers returned in
    order; an error or a panic of one call ends the sequence with [None]. *)
Fixpoint Get_times (k : nat) (d : MultiServersDiscovery Rand) (mode : SelectMode)
    : option (list string * MultiServersDiscovery Rand) :=
  match k with
  | O => Some ([], d)
  | S k' =>
      match Get d mode with
      | Some (s, None, d1) =>
          match Get_times k' d1 mode with
          | Some (ss, d2) => Some (s :: ss, d2)
          | None => None
          end
      | _ => None
      end
  end.
End discovery.

(** *** Broadcast

    Every branch ends with a critical section under [mu]; the branches take
    the lock in an order the scheduler chooses. A state of the broadcast is
    the set of branches still running, the branches finished (in the order in
    which they took the lock, each with what [xc.call] returned to it) and
    the variables shared under [mu]. [sets] counts the assignments made
    through the caller's [reply], [cancels] the calls of [cancel]. *)

Inductive call_result (Value : Type) :=
  | CallOk (clonedReply : Value)
  | CallErr (err : error).
Arguments CallOk {Value} clonedReply.
Arguments CallErr {Value} err.

Record bstate (Value : Type) := mkB {
  running : list string;
  finished : list (string * call_result Value);
  e : option error;
  replyDone : bool;
  reply : option Value;
  cancels : nat;
  sets : nat
}.
Arguments running {Value}.
Arguments finished {Value}.
Arguments e {Value}.
Arguments replyDone {Value}.
Arguments reply {Value}.
Arguments cancels {Value}.
Arguments sets {Value}.

Section broadcast.
Context {Value : Type}.

(** The state when the branches have been launched; [reply] is [None] for
    a nil [reply], else the value the caller's pointer refers to. *)
Definition launched (servers : list string) (reply : option Value) : bstate Value :=
  mkB Value servers [] None (bool_decide (reply = None)) reply 0 0.

(** The critical section of a branch whose call returned [res]. *)
Definition critical (s : bstate Value) (res : call_result Value) : bstate Value :=
  let s1 :=
    match res, e s with
    | CallErr err, None =>
        mkB Value (running s) (finished s) (Some err) (replyDone s) (reply s)
          (S (cancels s)) (sets s)
    | _, _ => s
    end in
  match res with
  | CallOk clonedReply =>
      if replyDone s1 then s1
      else mkB Value (running s1) (finished s1) (e s1) true (Some clonedReply)
             (cancels s1) (S (sets s1))
  | CallErr _ => s1
  end.

(** The branch for [rpcAddr] leaves [running] and joins [finished]. *)
Definition finish (s : bstate Value) (pre post : list string) (rpcAddr : string)
    (res : call_result Value) : bstate Value :=
  critical
    (mkB Value (pre ++ post) (finished s ++ [(rpcAddr, res)]) (e s) (replyDone s)
       (reply s) (cancels s) (sets s))
    res.

Inductive bstep : bstate Value → bstate Value → Prop :=
  | branch_returns s pre rpcAddr post res :
      running s = pre ++ rpcAddr :: post →
      bstep s (finish s pre post rpcAddr res).

(** [Broadcast getall reply s ret]: with [getall] the result of
    [d.GetAll()], the call ends in state [s] and returns [ret]. It
    returns once no branch is running ([wg.Wait()]). *)
Inductive Broadcast (getall : list string + error) (reply : option Value)
    : bstate Value → option error → Prop :=
  | Broadcast_no_servers err :
      getall = inr err →
      Broadcast getall reply (launched [] reply) (Some err)
  | Broadcast_waited servers s :
      getall = inl servers →
      rtc bstep (launched servers reply) s →
      running s = [] →
      Broadcast getall reply s (e s).

(** A schedule run: each item names the position in [running] of the
    branch that takes the lock next and what its call returned. *)
Fixpoint run_branches (s : bstate Value) (sched : list (nat * call_result Value))
    : option (bstate Value) :=
  match sched with
  | [] => Some s
  | (i, res) :: sched' =>
      match running s !! i with
      | None => None
      | Some rpcAddr =>
          run_branches
            (finish s (take i (running s)) (drop (S i) (running s)) rpcAddr res)
            sched'
      end
  end.

(** The first error and the first successful reply among the branches
    finished. *)
Fixpoint first_error (log : list (string * call_result Value)) : option error :=
  match log with
  | [] => None
  | (_, CallErr err) :: _ => Some err
  | (_, CallOk _) :: log' => first_error log'
  end.

Fixpoint first_reply (log : list (string * call_result Value)) : option Value :=
  match log with
  | [] => None
  | (_, CallOk v) :: _ => Some v
  | (_, CallErr _) :: log' => first_reply log'
  end.

(** What holds of the shared variables whenever the lock is free. *)
Definition shared_inv (servers : list string) (init : option Value)
    (s : bstate Value) : Prop :=
  running s ++ (finished s).*1 ≡ₚ servers
  ∧ e s = first_error (finished s)
  ∧ cancels s = (if first_error (finished s) is Some _ then 1 else 0)%nat
  ∧ match init with
    | None => replyDone s = true ∧ reply s = None ∧ sets s = 0%nat
    | Some _ =>
        match first_reply (finished s) with
        | Some v => replyDone s = true ∧ reply s = Some v ∧ sets s = 1%nat
        | None => replyDone s = false ∧ reply s = init ∧ sets s = 0%nat
        end
    end.
End broadcast.

End xclient.

(** ** The registry (package registry) *)

Module registry.

Record ServerItem := mkServerItem {
  Addr : string;
  start : Time
}.

Record GeeRegistry := mkRegistry {
  timeout : Duration;
  servers : gmap string ServerItem
}.

Definition defaultTimeout : Duration := 5 * 60 * second.

Definition New (timeout : Duration) : GeeRegistry := mkRegistry timeout ∅.

(** [t.Add(d)] and [t.After(u)] on instants. *)
Definition Time_Add (t : Time) (d : Duration) : Time := t + d.
Definition Time_After (t u : Time) : bool := u <? t.

Definition putServer (r : GeeRegistry) (addr : string) (now : Time) : GeeRegistry :=
  match servers r !! addr with
  | None => mkRegistry (timeout r) (<[addr := mkServerItem addr now]> (servers r))
  | Some s => mkRegistry (timeout r) (<[addr := mkServerItem (Addr s) now]> (servers r))
  end.

(** The test of the scan; [now] is the clock reading taken for the entry. *)
Definition alive (r : GeeRegistry) (s : ServerItem) (now : Time) : bool :=
  (timeout r =? 0) || Time_After (Time_Add (start s) (timeout r)) now.

(** The entry is due for eviction at reading [now]. *)
Definition expired (r : GeeRegistry) (s : ServerItem) (now : Time) : Prop :=
  timeout r ≠ 0 ∧ start s + timeout r <= now.

(** [aliveServers]: the sorted addresses and the registry afterwards. The
    scan reads the clock once per entry; [clock addr] is the reading taken
    when the entry of [addr] is examined. Entries failing the test are
    deleted. *)
Definition aliveServers (r : GeeRegistry) (clock : string → Time)
    : list string * GeeRegistry :=
  let kept := filter (λ kv, alive r kv.2 (clock kv.1) = true) (servers r) in
  (sort_Strings (map_to_list kept).*1, mkRegistry (timeout r) kept).

Record Request := mkRequest {
  Method : string;
  Header : gmap string string
}.

Record ResponseWriter := mkResponseWriter {
  status : Z;
  header : gmap string string
}.

Definition StatusOK : Z := 200.
Definition StatusMethodNotAllowed : Z := 405.
Definition StatusInternalServerError : Z := 500.

(** [Header.Get]: the empty string for a missing key. *)
Definition Header_Get (hd : gmap string string) (key : string) : string :=
  default "" (hd !! key).

(** [ServeHTTP]: the registry afterwards and the response. [now] is the
    reading used by [putServer]. *)
Definition ServeHTTP (r : GeeRegistry) (req : Request) (clock : string → Time)
    (now : Time) : GeeRegistry * ResponseWriter :=
  if decide (Method req = "GET") then
    let '(alive, r') := aliveServers r clock in
    (r', mkResponseWriter StatusOK {[ "X-Geerpc-Servers" := Join alive "," ]})
  else if decide (Method req = "POST") then
    let addr := Header_Get (Header req) "X-Geerpc-Server" in
    if decide (addr = "") then (r, mkResponseWriter StatusInternalServerError ∅)
    else (putServer r addr now, mkResponseWriter StatusOK ∅)
  else (r, mkResponseWriter StatusMethodNotAllowed ∅).

(** A registry with a timeout of three seconds that heard of "a" at 0 s,
    of "c" at 4 s and of "b" at 5 s. *)
Definition sample_registry : GeeRegistry :=
  putServer (putServer (putServer (New (3 * second)) "a" 0) "c" (4 * second))
    "b" (5 * second).

Definition GET : Request := mkRequest "GET" ∅.

End registry.

(** ** Dialling by address (client) *)

Definition at_sign : ascii := "@"%char.
Definition comma : ascii := ","%char.

(** [strings.Split(s, sep)] for a one-byte separator: the pieces of [s]
    between the occurrences of [c], one more than there are occurrences. *)
Fixpoint Split (s : string) (c : ascii) : list string :=
  match s with
  | EmptyString => [""]
  | String a s' =>
      if Ascii.eqb a c then "" :: Split s' c
      else
        match Split s' c with
        | piece :: rest => String a piece :: rest
        | [] => [String a ""]
        end
  end.

Section XDial.
Context {ClientT : Type}.
(** [Dial] and [DialHTTP] (through [dialTimeout]) are declared outside the
    files at hand; each returns a client or an error. *)
Variable Dial : string → string → list Option → ClientT + error.
Variable DialHTTP : string → string → list Option → ClientT + error.

(** [XDial]: [len(parts) != 2] is the failure of the match. *)
Definition XDial (rpcAddr : string) (opts : list Option) : ClientT + error :=
  match Split rpcAddr at_sign with
  | [protocol; addr] =>
      if decide (protocol = "http") then DialHTTP "tcp" addr opts
      else Dial protocol addr opts
  | _ =>
      inr ("rpc client err: wrong format '" +:+ rpcAddr +:+ "', expect protocol@addr")
  end.
End XDial.

(** ** The handshake (server) *)

Definition JsonType : string := "application/json".

Inductive handshake (Result : Type) :=
  | OptionsError (err : error)
  | InvalidMagicNumber (n : Z)
  | InvalidCodecType (t : string)
  | Served (res : Result).
Arguments OptionsError {Result} err.
Arguments InvalidMagicNumber {Result} n.
Arguments InvalidCodecType {Result} t.
Arguments Served {Result} res.

Section ServeConn.
Context {Value Stream C : Type} `{!Codec Value C}.
(** [json.NewDecoder(conn).Decode(&opt)]: the stream afterwards and the
    option record or the error. *)
Variable Decode : Stream → Stream * (Option + error).
(** [NewGobCodec], the one factory the package registers. *)
Variable NewGobCodec : Stream → C.

(** [NewCodecFuncMap] as [init] leaves it. *)
Definition NewCodecFuncMap : gmap string (Stream → C) :=
  {[ GobType := NewGobCodec ]}.

(** [ServeConn] up to the return of [serveCodec]. In every case the
    deferred [conn.Close()] then runs; on a rejected handshake nothing else
    has touched the stream after [Decode]. *)
Definition ServeConn (server : Server Value) (conn : Stream) (start : Time)
    (clock : list Time) : handshake (served (Value:=Value) (C:=C)) :=
  match Decode conn with
  | (_, inr err) => OptionsError err
  | (conn1, inl opt) =>
      if negb (MagicNumber opt =? MagicNumber_geerpc) then
        InvalidMagicNumber (MagicNumber opt)
      else
        match NewCodecFuncMap !! CodecType opt with
        | None => InvalidCodecType (CodecType opt)
        | Some f => Served (serveCodec server (f conn1) opt start clock)
        end
  end.
End ServeConn.

(** ** The client cache of XClient (package xclient) *)

Module xclient_cache.

(** The cache [clients], and beside it the clients the XClient has removed
    from the cache, each as its [Close] left it, in the order of removal
    (they are out of the map but still exist for whoever holds them). *)
Record XClient (Value C : Type) := mkXClient {
  mode : xclient.SelectMode;
  xc_opt : Option;
  clients : gmap string (Client Value C);
  removed : list (Client Value C)
}.
Arguments mode {Value C}.
Arguments xc_opt {Value C}.
Arguments clients {Value C}.
Arguments removed {Value C}.

Section cache.
Context {Value C : Type} `{!Codec Value C}.
Variable Dial : string → string → list Option → Client Value C + error.
Variable DialHTTP : string → string → list Option → Client Value C + error.

Definition NewXClient (mode : xclient.SelectMode) (opt : Option) : XClient Value C :=
  mkXClient Value C mode opt ∅ [].

(** [XClient.Close]: every cached client is closed and deleted; the
    errors of the [Close] calls are dropped. *)
Definition XClient_Close (xc : XClient Value C) : XClient Value C * option error :=
  (mkXClient Value C (mode xc) (xc_opt xc) ∅
     (removed xc ++ ((λ kv, (Client_Close kv.2).1) <$> map_to_list (clients xc))),
   None).

(** [XClient.dial]: the XClient afterwards and the client or the error. *)
Definition dial (xc : XClient Value C) (rpcAddr : string)
    : XClient Value C * (Client Value C + error) :=
  let '(clients1, removed1, client) :=
    match clients xc !! rpcAddr with
    | Some client =>
        if negb (IsAvailable client) then
          (delete rpcAddr (clients xc),
           removed xc ++ [(Client_Close client).1],
           None)
        else (clients xc, removed xc, Some client)
    | None => (clients xc, removed xc, None)
    end in
  match client with
  | Some client =>
      (mkXClient Value C (mode xc) (xc_opt xc) clients1 removed1, inl client)
  | None =>
      match XDial Dial DialHTTP rpcAddr [xc_opt xc] with
      | inr err =>
          (mkXClient Value C (mode xc) (xc_opt xc) clients1 removed1, inr err)
      | inl client =>
          (mkXClient Value C (mode xc) (xc_opt xc) (<[rpcAddr := client]> clients1)
             removed1,
           inl client)
      end
  end.
End cache.

End xclient_cache.

(** ** Requests to the registry, one after the other *)

Module registry_trace.
Import registry.

(** A request with the clock readings its handling takes: those of the scan
    of a [GET], that of the [putServer] of a [POST]. *)
Record arrival := mkArrival {
  request : Request;
  scan_clock : string → Time;
  put_now : Time
}.

Definition serve (r : GeeRegistry) (a : arrival) : GeeRegistry * ResponseWriter :=
  ServeHTTP r (request a) (scan_clock a) (put_now a).

(** The registry after the requests, and the responses in order. *)
Fixpoint serve_all (r : GeeRegistry) (arrivals : list arrival)
    : GeeRegistry * list ResponseWriter :=
  match arrivals with
  | [] => (r, [])
  | a :: rest =>
      let '(r1, w) := serve r a in
      let '(r2, ws) := serve_all r1 rest in
      (r2, w :: ws)
  end.

(** The heartbeat of [addr] as [sendHeartbeat] sends it, handled at [now]. *)
Definition beat (addr : string) (now : Time) : arrival :=
  mkArrival (mkRequest "POST" {[ "X-Geerpc-Server" := addr ]}) (λ _, now) now.

Definition get (clock : string → Time) : arrival :=
  mkArrival (mkRequest "GET" ∅) clock 0.

(** The request is no heartbeat of [addr]. *)
Definition not_beat_of (addr : string) (a : arrival) : Prop :=
  Method (request a) = "POST" →
  Header_Get (Header (request a)) "X-Geerpc-Server" ≠ addr.

(** If the request is a [GET], an entry of [addr] last seen at [seen] is
    not due for eviction at the reading its scan takes for it. *)
Definition spares (r : GeeRegistry) (addr : string) (seen : Time) (a : arrival)
    : Prop :=
  Method (request a) = "GET" →
  timeout r = 0 ∨ scan_clock a addr < seen + timeout r.

(** Every entry is filed under its own address. *)
Definition keyed (r : GeeRegistry) : Prop :=
  ∀ addr s, servers r !! addr = Some s → Addr s = addr.

End registry_trace.

(** ** Discovery through the registry (package xclient) *)

Module registry_discovery.

Record GeeRegistryDiscovery (Rand : Type) := mkGeeRegistryDiscovery {
  MultiServersDiscovery : xclient.MultiServersDiscovery Rand;
  registry : string;
  timeout : Duration;
  lastUpdate : Time
}.
Arguments MultiServersDiscovery {Rand}.
Arguments registry {Rand}.
Arguments timeout {Rand}.
Arguments lastUpdate {Rand}.

Definition defaultUpdateTimeout : Duration := 10 * second.

(** The zero [time.Time], January 1 of year 1, on a clock whose instants
    count nanoseconds from the Unix epoch. *)
Definition zero_Time : Time := - 62135596800 * second.

Section refresh.
Context {Rand : Type}.
Variable Intn : Rand → Z → Z * Rand.
(** [strings.TrimSpace] *)
Variable TrimSpace : string → string.
(** [http.Get(url)]: the header of the response, or the error. *)
Variable http_Get : string → gmap string string + error.

Definition with_servers (d : GeeRegistryDiscovery Rand) (servers : list string)
    (now : Time) : GeeRegistryDiscovery Rand :=
  mkGeeRegistryDiscovery Rand
    (xclient.Update (MultiServersDiscovery d) servers)
    (registry d) (timeout d) now.

(** [GeeRegistryDiscovery.Update] *)
Definition Update (d : GeeRegistryDiscovery Rand) (servers : list string)
    (now : Time) : GeeRegistryDiscovery Rand * option error :=
  (with_servers d servers now, None).

(** The loop of [Refresh] over the pieces of the header. *)
Fixpoint trimmed (servers : list string) : list string :=
  match servers with
  | [] => []
  | server :: rest =>
      if decide (TrimSpace server = "") then trimmed rest
      else TrimSpace server :: trimmed rest
  end.

(** [Refresh]; [now] is the reading compared with the deadline, [now'] the
    one stored in [lastUpdate] after the registry has answered. *)
Definition Refresh (d : GeeRegistryDiscovery Rand) (now now' : Time)
    : GeeRegistryDiscovery Rand * option error :=
  if registry.Time_After (registry.Time_Add (lastUpdate d) (timeout d)) now then
    (d, None)
  else
    match http_Get (registry d) with
    | inr err => (d, Some err)
    | inl hdr =>
        let servers := Split (registry.Header_Get hdr "X-Geerpc-Servers") comma in
        (with_servers d (trimmed servers) now', None)
    end.

(** [GeeRegistryDiscovery.Get]; [None] is a panic of the embedded [Get]. *)
Definition Get (d : GeeRegistryDiscovery Rand) (mode : xclient.SelectMode)
    (now now' : Time)
    : option (string * option error * GeeRegistryDiscovery Rand) :=
  match Refresh d now now' with
  | (d1, Some err) => Some ("", Some err, d1)
  | (d1, None) =>
      match xclient.Get Intn (MultiServersDiscovery d1) mode with
      | None => None
      | Some (s, err, base) =>
          Some (s, err,
                mkGeeRegistryDiscovery Rand base (registry d1) (timeout d1)
                  (lastUpdate d1))
      end
  end.

(** [GeeRegistryDiscovery.GetAll] *)
Definition GetAll (d : GeeRegistryDiscovery Rand) (now now' : Time)
    : GeeRegistryDiscovery Rand * (list string + error) :=
  match Refresh d now now' with
  | (d1, Some err) => (d1, inr err)
  | (d1, None) => (d1, xclient.GetAll (MultiServersDiscovery d1))
  end.

(** [NewGeeRegistryDiscovery]; [r0] is the generator the embedded
    discovery is seeded with. *)
Definition NewGeeRegistryDiscovery (registerAddr : string) (timeout : Duration)
    (r0 : Rand) : GeeRegistryDiscovery Rand :=
  let timeout := if timeout =? 0 then defaultUpdateTimeout else timeout in
  mkGeeRegistryDiscovery Rand (xclient.NewMultiServerDiscovery Intn [] r0)
    registerAddr timeout zero_Time.
End refresh.

(** A stand-in for [strings.TrimSpace] on addresses of ASCII characters
    without white space: the identity. *)
Definition TrimSpace_plain (s : string) : string := s.

End registry_discovery.

(** * Theorems *)

(** ** Machine arithmetic *)

(** A value shown to lie in the range of [int]. *)
Ltac fits := unfold int64, min_int64; lia.

Lemma wrap64_small z : int64 z → wrap64 z = z.
Proof.
  unfold int64, min_int64, max_int64, wrap64. intros Hz.
  rewrite Z.mod_small; lia.
Qed.

Lemma Time_Sub_forward t u :
  u <= t → Time_Sub t u = Z.min max_int64 (t - u).
Proof. unfold Time_Sub, min_int64, max_int64. lia. Qed.

Lemma div_superadditive x y d :
  0 < d → x / d + y / d <= (x + y) / d.
Proof.
  intros Hd. apply Z.div_le_lower_bound; [done|].
  pose proof (Z.mul_div_le x d Hd). pose proof (Z.mul_div_le y d Hd). lia.
Qed.

(** ** The token bucket *)

Example allow_run_burst :
  allow_run (NewTokenBucket 10 2 second 0)
    (replicate 11 900000000 ++ [1000000000; 1000000000; 1000000000])
  = replicate 10 (900000000, true) ++ [(900000000, false)]
    ++ [(1000000000, true); (1000000000, true); (1000000000, false)].
Proof. vm_compute. reflexivity. Qed.

Lemma NewTokenBucket_inv C R I t0 : 0 <= C → bucket_inv (NewTokenBucket C R I t0).
Proof. unfold bucket_inv. simpl. lia. Qed.

Lemma refill_static tb now :
  capacity (refill tb now) = capacity tb
  ∧ refillAmount (refill tb now) = refillAmount tb
  ∧ refillInterval (refill tb now) = refillInterval tb.
Proof. unfold refill. by destruct (0 <? tokensToAdd tb now). Qed.

(** The refill keeps the bound as long as its sum stays within [int]. *)
Lemma refill_inv tb now :
  bucket_inv tb →
  tokens tb + tokensToAdd tb now <= max_int64 →
  bucket_inv (refill tb now).
Proof.
  unfold bucket_inv, refill. intros Hinv Hsum.
  destruct (0 <? tokensToAdd tb now) eqn:Hadd; [|done].
  apply Z.ltb_lt in Hadd. simpl.
  unfold add64. rewrite wrap64_small by fits.
  destruct (capacity tb <? tokens tb + tokensToAdd tb now) eqn:Hcap.
  - lia.
  - apply Z.ltb_ge in Hcap. lia.
Qed.

Lemma Allow_consumes tb now ok tb' :
  Allow tb now = Some (ok, tb') →
  refillInterval tb ≠ 0
  ∧ ok = (0 <? tokens (refill tb now))
  ∧ tokens tb' = (if ok then sub64 (tokens (refill tb now)) 1 else tokens (refill tb now))
  ∧ capacity tb' = capacity tb
  ∧ refillAmount tb' = refillAmount tb
  ∧ refillInterval tb' = refillInterval tb
  ∧ lastRefill tb' = lastRefill (refill tb now).
Proof.
  unfold Allow. destruct (refillInterval tb =? 0) eqn:HI; [done|].
  apply Z.eqb_neq in HI. pose proof (refill_static tb now) as (Hc&Hr&Hi).
  cbv zeta. generalize dependent (refill tb now). intros tb1 Hc Hr Hi.
  destruct (0 <? tokens tb1); intros Heq; injection Heq as <- <-;
    cbn [tokens capacity refillAmount refillInterval lastRefill]; auto 10.
Qed.

Lemma Allow_inv tb now ok tb' :
  capacity tb <= max_int64 →
  bucket_inv tb →
  tokens tb + tokensToAdd tb now <= max_int64 →
  Allow tb now = Some (ok, tb') →
  bucket_inv tb' ∧ capacity tb' = capacity tb.
Proof.
  intros Hcap Hinv Hsum Hallow.
  pose proof (refill_inv tb now Hinv Hsum) as Hr.
  pose proof (refill_static tb now) as (Hc&_&_).
  apply Allow_consumes in Hallow as (_&Hok&Htok&Hc'&_).
  split; [|done]. unfold bucket_inv in *. rewrite Hc', Htok, <-Hc.
  destruct ok.
  - symmetry in Hok. apply Z.ltb_lt in Hok.
    unfold sub64. rewrite wrap64_small by fits. lia.
  - symmetry in Hok. apply Z.ltb_ge in Hok. lia.
Qed.

(** The bucket of the server, [(10, 2, 1 s)], never reaches the limit of
    [int]: whatever the clock reading, its refill sum fits. *)
Lemma server_bucket_refill_fits tb now :
  capacity tb = 10 → refillAmount tb = 2 → refillInterval tb = second →
  bucket_inv tb →
  tokens tb + tokensToAdd tb now <= max_int64.
Proof.
  intros Hc Hr Hi Hinv. unfold bucket_inv in Hinv.
  unfold tokensToAdd, mul64, quo64. rewrite Hr, Hi.
  set (d := Time_Sub now (lastRefill tb)).
  assert (min_int64 <= d <= max_int64) as Hd
    by (unfold d, Time_Sub, min_int64, max_int64; lia).
  assert (-9223372037 <= Z.quot d second <= 9223372037) as Hq.
  { unfold min_int64, max_int64, second in *.
    destruct (Z.le_gt_cases 0 d) as [Hpos|Hneg].
    - rewrite Z.quot_div_nonneg by lia.
      pose proof (Z.div_le_mono d (2 ^ 63 - 1) 1000000000 ltac:(lia) ltac:(lia)).
      pose proof (Z.div_pos d 1000000000 ltac:(lia) ltac:(lia)).
      change ((2 ^ 63 - 1) `div` 1000000000) with 9223372036 in *. lia.
    - replace d with (- - d) by lia. rewrite Z.quot_opp_l by lia.
      rewrite Z.quot_div_nonneg by lia.
      pose proof (Z.div_le_mono (- d) (2 ^ 63) 1000000000 ltac:(lia) ltac:(lia)).
      pose proof (Z.div_pos (- d) 1000000000 ltac:(lia) ltac:(lia)).
      change (2 ^ 63 `div` 1000000000) with 9223372036 in *. lia. }
  rewrite (wrap64_small (Z.quot d second))
    by (unfold int64, min_int64, max_int64; lia).
  rewrite wrap64_small by (unfold int64, min_int64, max_int64; lia).
  unfold max_int64. lia.
Qed.

(** Hence the bucket of a connection keeps the bound whatever the clock
    readings of its [Allow] calls. *)
Lemma server_bucket_inv clock : ∀ tb,
  bucket_of 10 2 second tb → bucket_of 10 2 second (allow_state tb clock).
Proof.
  induction clock as [|now clock IH]; intros tb Hgood; simpl; [done|].
  destruct (Allow tb now) as [[ok tb']|] eqn:Hallow; [|done].
  apply IH. destruct Hgood as (Hc&Hr&Hi&Hinv).
  pose proof (server_bucket_refill_fits tb now Hc Hr Hi Hinv) as Hfits.
  destruct (Allow_inv tb now ok tb') as [Hinv' Hc']; try done.
  { rewrite Hc. unfold max_int64. lia. }
  apply Allow_consumes in Hallow as (_&_&_&_&Hr'&Hi'&_).
  unfold bucket_of. by rewrite Hc', Hr', Hi', Hc, Hr, Hi.
Qed.

(** C10, as stated, fails: with a refill amount of [max_int64] the refill sum
    wraps around and the bucket is left with a negative number of tokens. *)
Lemma Allow_overflow_breaks_inv :
  bucket_inv (NewTokenBucket 10 max_int64 1 0)
  ∧ Allow (NewTokenBucket 10 max_int64 1 0) 1
    = Some (false, mkTokenBucket (-9223372036854775799) 10 max_int64 1 1)
  ∧ ¬ bucket_inv (mkTokenBucket (-9223372036854775799) 10 max_int64 1 1).
Proof.
  split; [|split].
  - apply NewTokenBucket_inv. lia.
  - vm_compute. reflexivity.
  - unfold bucket_inv. simpl. lia.
Qed.

(** C10 (amended): for a bucket made by [NewTokenBucket] with a capacity in
    [0, max_int64] the bound [0 <= tokens <= capacity] holds initially, and
    every [Allow] call that returns keeps it, together with the capacity,
    provided the refill sum [tokens + tokensToAdd] of that call does not exceed
    [max_int64]. *)
Theorem Allow_preserves_bucket_inv (C R : Z) (I : Duration) (t0 : Time) :
  0 <= C <= max_int64 →
  bucket_inv (NewTokenBucket C R I t0)
  ∧ ∀ tb now ok tb',
      capacity tb = C →
      bucket_inv tb →
      tokens tb + tokensToAdd tb now <= max_int64 →
      Allow tb now = Some (ok, tb') →
      bucket_inv tb' ∧ capacity tb' = C.
Proof.
  intros HC. split.
  - apply NewTokenBucket_inv. lia.
  - intros tb now ok tb' Hcap Hinv Hsum Hallow.
    destruct (Allow_inv tb now ok tb') as [? ?]; try done; [lia|].
    split; [done|congruence].
Qed.

Lemma Allow_preserves_bucket_inv_witness :
  bucket_inv (NewTokenBucket 10 2 second 0)
  ∧ bucket_inv (mkTokenBucket 8 10 2 second 3000000000).
Proof.
  assert (0 <= 10 <= max_int64) as HC by (unfold max_int64; lia).
  destruct (Allow_preserves_bucket_inv 10 2 second 0 HC) as [H0 Hstep].
  split; [exact H0|].
  refine (proj1 (Hstep (mkTokenBucket 3 10 2 second 0) 3000000000 true _ _ _ _ _)).
  - reflexivity.
  - unfold bucket_inv. simpl. lia.
  - vm_compute. discriminate.
  - vm_compute. reflexivity.
Defined.

(** *** The number of admissions in a window *)

Lemma accepted_in_nil a T : accepted_in a T [] = 0.
Proof. reflexivity. Qed.

Lemma accepted_in_cons a T c log :
  accepted_in a T (c :: log)
  = (if in_window a T c then 1 else 0) + accepted_in a T log.
Proof.
  unfold accepted_in. rewrite filter_cons.
  destruct (in_window a T c); case_decide; try done; simpl; lia.
Qed.

(** Calls made after the window has closed are not counted. *)
Lemma accepted_in_late a T tb clock :
  Forall (λ t, a + T < t) clock → accepted_in a T (allow_run tb clock) = 0.
Proof.
  intros Hlate. revert tb.
  induction Hlate as [|now clock Hnow _ IH]; intros tb; simpl; [done|].
  destruct (Allow tb now) as [[ok tb']|]; [|done].
  rewrite accepted_in_cons, IH. unfold in_window. simpl.
  assert ((now <=? a + T) = false) as -> by (apply Z.leb_gt; lia).
  by rewrite andb_false_r.
Qed.

Section window.
Variables (C R : Z) (I : Duration).
Hypothesis HC : 0 <= C.
Hypothesis HR : 0 <= R.
Hypothesis HI : 0 < I <= max_int64.
Hypothesis Hfit : C + R * (max_int64 / I) <= max_int64.

Local Lemma ratio_bounds d :
  0 <= d → 0 <= Z.min max_int64 d / I <= max_int64 / I
  ∧ Z.min max_int64 d / I <= d / I.
Proof.
  intros Hd. assert (0 <= max_int64) by (unfold max_int64; lia).
  split; [split|].
  - apply Z.div_pos; lia.
  - apply Z.div_le_mono; lia.
  - apply Z.div_le_mono; lia.
Qed.

Local Lemma capacity_fits : C <= max_int64.
Proof.
  assert (0 <= max_int64 / I) by (apply Z.div_pos; unfold max_int64; lia). nia.
Qed.

(** Within the parameters nothing wraps around: the machine value of
    [tokensToAdd] is the mathematical one. *)
Lemma tokensToAdd_exact tb now :
  bucket_of C R I tb →
  lastRefill tb <= now →
  tokensToAdd tb now = Z.min max_int64 (now - lastRefill tb) / I * R
  ∧ 0 <= tokensToAdd tb now <= R * (max_int64 / I).
Proof.
  intros (Hc&Hr&Hi&Hinv) Hlr.
  destruct (ratio_bounds (now - lastRefill tb)) as [[Hk0 Hk1] _]; [lia|].
  set (k := Z.min max_int64 (now - lastRefill tb) / I) in *.
  assert (0 <= max_int64 / I) by lia.
  assert (k <= Z.min max_int64 (now - lastRefill tb)).
  { subst k. apply Z.div_le_upper_bound; [lia|].
    assert (0 <= Z.min max_int64 (now - lastRefill tb))
      by (unfold max_int64; lia).
    nia. }
  assert (0 <= k * R <= R * (max_int64 / I)) by nia.
  assert (tokensToAdd tb now = k * R) as Heq.
  { unfold tokensToAdd, mul64, quo64.
    rewrite Hr, Hi, Time_Sub_forward by done.
    rewrite Z.quot_div_nonneg by (unfold max_int64; lia).
    fold k. rewrite (wrap64_small k) by fits.
    apply wrap64_small. fits. }
  rewrite Heq. done.
Qed.

Lemma refill_good tb now :
  bucket_of C R I tb →
  lastRefill tb <= now →
  bucket_of C R I (refill tb now)
  ∧ lastRefill tb <= lastRefill (refill tb now) <= now
  ∧ (R = 0 ∨ now - lastRefill (refill tb now) < I)
  ∧ ∀ b, now <= b →
      tokens (refill tb now) + R * ((b - lastRefill (refill tb now)) / I)
      <= tokens tb + R * ((b - lastRefill tb) / I).
Proof.
  intros Hgood Hlr.
  destruct (tokensToAdd_exact tb now Hgood Hlr) as [Heq Hrange].
  destruct (ratio_bounds (now - lastRefill tb)) as [[Hk0 Hk1] Hk2]; [lia|].
  destruct Hgood as (Hc&Hr&Hi&Hinv).
  pose proof (refill_static tb now) as (Hc'&Hr'&Hi').
  assert (bucket_inv (refill tb now)) as Hinv'.
  { apply refill_inv; [done|]. unfold bucket_inv in Hinv. lia. }
  split; [unfold bucket_of; rewrite Hc', Hr', Hi'; done|].
  unfold refill in *. destruct (0 <? tokensToAdd tb now) eqn:Hadd; simpl.
  - apply Z.ltb_lt in Hadd. split; [lia|]. split; [right; lia|].
    intros b Hb. unfold bucket_inv in Hinv.
    unfold add64. rewrite wrap64_small by fits.
    pose proof (div_superadditive (b - now) (now - lastRefill tb) I) as Hsup.
    replace (b - now + (now - lastRefill tb)) with (b - lastRefill tb) in Hsup by lia.
    assert (tokensToAdd tb now <= R * ((now - lastRefill tb) / I)) by nia.
    destruct (capacity tb <? tokens tb + tokensToAdd tb now) eqn:Hcap;
      [apply Z.ltb_lt in Hcap|apply Z.ltb_ge in Hcap]; nia.
  - apply Z.ltb_ge in Hadd. split; [lia|]. split; [|intros; lia].
    destruct (decide (R = 0)) as [|HR0]; [by left|right].
    assert (Z.min max_int64 (now - lastRefill tb) / I = 0) as Hzero by nia.
    apply Z.div_small_iff in Hzero as [Hsmall|Hneg]; [|lia|lia].
    lia.
Qed.

Lemma Allow_good tb now :
  bucket_of C R I tb →
  lastRefill tb <= now →
  ∃ ok tb',
    Allow tb now = Some (ok, tb')
    ∧ bucket_of C R I tb'
    ∧ lastRefill tb' = lastRefill (refill tb now)
    ∧ tokens tb' + (if ok then 1 else 0) = tokens (refill tb now).
Proof.
  intros Hgood Hlr.
  destruct (refill_good tb now Hgood Hlr) as ((Hc&Hr&Hi&Hinv)&_).
  destruct (Allow tb now) as [[ok tb']|] eqn:Hallow.
  - exists ok, tb'. split; [done|].
    apply Allow_consumes in Hallow as (_&Hok&Htok&Hc'&Hr'&Hi'&Hlr').
    pose proof (refill_static tb now) as (Hc1&Hr1&Hi1).
    unfold bucket_inv in Hinv. pose proof capacity_fits as HCmax.
    assert (tokens tb' + (if ok then 1 else 0) = tokens (refill tb now)
            ∧ 0 <= tokens tb') as [? ?].
    { rewrite Htok. destruct ok; symmetry in Hok.
      - apply Z.ltb_lt in Hok. unfold sub64.
        rewrite wrap64_small by fits. lia.
      - apply Z.ltb_ge in Hok. lia. }
    repeat split; try congruence; try lia.
    destruct ok; rewrite Hc', <-Hc1; lia.
  - unfold Allow in Hallow. destruct Hgood as (_&_&Hi0&_).
    destruct (refillInterval tb =? 0) eqn:Hz; [apply Z.eqb_eq in Hz; lia|].
    by destruct (0 <? tokens (refill tb now)).
Qed.

(** From any state, the calls admitted up to the end [a + T] of a window are
    paid for by the tokens at hand and the refills still to come. *)
Lemma accepted_upto a T clock : ∀ tb,
  bucket_of C R I tb →
  StronglySorted Z.le (lastRefill tb :: clock) →
  lastRefill tb <= a + T →
  accepted_in a T (allow_run tb clock)
  <= tokens tb + R * ((a + T - lastRefill tb) / I).
Proof.
  induction clock as [|now clock IH]; intros tb Hgood Hsorted Hlr.
  - simpl. rewrite accepted_in_nil. destruct Hgood as (_&_&_&Hinv).
    unfold bucket_inv in Hinv.
    assert (0 <= (a + T - lastRefill tb) / I) by (apply Z.div_pos; lia). nia.
  - apply StronglySorted_inv in Hsorted as [Hclock Hall].
    apply Forall_cons in Hall as [Hnow Hrest].
    apply StronglySorted_inv in Hclock as [Hclock Hnexts].
    destruct (decide (now <= a + T)) as [Hin|Hout].
    + destruct (Allow_good tb now Hgood Hnow) as (ok&tb'&Hallow&Hgood'&Hlr'&Htok).
      destruct (refill_good tb now Hgood Hnow) as (_&Hlr1&_&Hpot).
      simpl. rewrite Hallow, accepted_in_cons.
      specialize (IH tb' Hgood').
      rewrite Hlr' in IH. specialize (Hpot (a + T) Hin).
      assert (accepted_in a T (allow_run tb' clock)
              <= tokens tb' + R * ((a + T - lastRefill (refill tb now)) / I)) as Hrec.
      { apply IH; [|lia]. apply SSorted_cons; [done|].
        eapply Forall_impl; [exact Hnexts|]. simpl. intros; lia. }
      assert ((if in_window a T (now, ok) then 1 else 0) <= (if ok then 1 else 0)).
      { unfold in_window. simpl. destruct ok; simpl; [|lia].
        destruct (a <=? now), (now <=? a + T); simpl; lia. }
      lia.
    + rewrite accepted_in_late.
      * destruct Hgood as (_&_&_&Hinv). unfold bucket_inv in Hinv.
        assert (0 <= (a + T - lastRefill tb) / I) by (apply Z.div_pos; lia). nia.
      * apply Forall_cons. split; [lia|].
        eapply Forall_impl; [exact Hnexts|]. simpl. intros; lia.
Qed.

(** The window bound, from any state of the bucket. *)
Lemma accepted_in_window a T clock : ∀ tb,
  0 <= T →
  bucket_of C R I tb →
  StronglySorted Z.le (lastRefill tb :: clock) →
  accepted_in a T (allow_run tb clock) <= C + R * (T / I + 1).
Proof.
  intros tb HT. revert tb.
  assert (0 <= T / I) as HTI by (apply Z.div_pos; lia).
  induction clock as [|now clock IH]; intros tb Hgood Hsorted.
  - simpl. rewrite accepted_in_nil. nia.
  - apply StronglySorted_inv in Hsorted as [Hclock Hall].
    apply Forall_cons in Hall as [Hnow Hrest].
    apply StronglySorted_inv in Hclock as [Hclock Hnexts].
    destruct (Allow_good tb now Hgood Hnow) as (ok&tb'&Hallow&Hgood'&Hlr'&Htok).
    destruct (refill_good tb now Hgood Hnow) as (Hgood1&Hlr1&Hfresh&_).
    assert (StronglySorted Z.le (lastRefill tb' :: clock)) as Hsorted'.
    { apply SSorted_cons; [done|]. rewrite Hlr'.
      eapply Forall_impl; [exact Hnexts|]. simpl. intros; lia. }
    destruct (decide (now < a)) as [Hbefore|Hfrom].
    + simpl. rewrite Hallow, accepted_in_cons.
      unfold in_window at 1. simpl.
      assert ((a <=? now) = false) as -> by (apply Z.leb_gt; lia).
      rewrite andb_false_r. simpl. by apply IH.
    + destruct (decide (now <= a + T)) as [Hin|Hout].
      * simpl. rewrite Hallow, accepted_in_cons.
        pose proof (accepted_upto a T clock tb' Hgood' Hsorted') as Hrest'.
        rewrite Hlr' in Hrest'. specialize (Hrest' ltac:(lia)).
        assert ((if in_window a T (now, ok) then 1 else 0) <= (if ok then 1 else 0)).
        { unfold in_window. simpl. destruct ok; simpl; [|lia].
          destruct (a <=? now), (now <=? a + T); simpl; lia. }
        destruct Hgood1 as (Hc1&_&_&Hinv1). unfold bucket_inv in Hinv1.
        set (lr := lastRefill (refill tb now)) in *.
        assert (R * ((a + T - lr) / I) <= R * (T / I + 1)).
        { destruct Hfresh as [->|Hfresh]; [lia|].
          apply Z.mul_le_mono_nonneg_l; [done|].
          replace (T / I + 1) with ((T + 1 * I) / I)
            by (rewrite Z.div_add by lia; done).
          apply Z.div_le_mono; lia. }
        lia.
      * rewrite accepted_in_late; [nia|].
        apply Forall_cons. split; [lia|].
        eapply Forall_impl; [exact Hnexts|]. simpl. intros; lia.
Qed.
End window.

Lemma burst_clock_sorted :
  StronglySorted Z.le (0 :: replicate 10 900000000 ++ [1000000000; 1000000000]).
Proof.
  vm_compute. repeat (constructor; [|repeat constructor; discriminate]). constructor.
Qed.

(** C4, as stated, fails: ten calls at 0.9 s and two more at 1.0 s are all
    admitted, twelve in a window of 0.1 s, where the stated bound is
    [10 + 2 * floor(0.1 s / 1 s) = 10]. *)
Lemma window_bound_without_slack_fails :
  StronglySorted Z.le (0 :: replicate 10 900000000 ++ [1000000000; 1000000000])
  ∧ accepted_in 900000000 100000000
      (allow_run (NewTokenBucket 10 2 second 0)
         (replicate 10 900000000 ++ [1000000000; 1000000000])) = 12
  ∧ ¬ (accepted_in 900000000 100000000
         (allow_run (NewTokenBucket 10 2 second 0)
            (replicate 10 900000000 ++ [1000000000; 1000000000]))
       <= 10 + 2 * (100000000 / second)).
Proof.
  split; [|split].
  - exact burst_clock_sorted.
  - vm_compute. reflexivity.
  - vm_compute. intros H. apply H. reflexivity.
Qed.

(** C4 (amended): for a bucket [(C, R, I)] with [0 <= C], [0 <= R],
    [0 < I] and [C + R * floor(max_int64 / I) <= max_int64] (the defaults
    [(10, 2, 1 s)] among them), and [Allow] calls at clock readings that do not
    go backwards, the number of calls answered [true] in any window
    [[a, a + T]] is at most [C + R * (floor(T / I) + 1)]. *)
Theorem accepted_in_window_bound (C R : Z) (I : Duration) (t0 : Time)
    (clock : list Time) (a T : Z) :
  0 <= C → 0 <= R → 0 < I <= max_int64 →
  C + R * (max_int64 / I) <= max_int64 →
  StronglySorted Z.le (t0 :: clock) →
  0 <= T →
  accepted_in a T (allow_run (NewTokenBucket C R I t0) clock)
  <= C + R * (T / I + 1).
Proof.
  intros HC HR HI Hfit Hsorted HT.
  apply accepted_in_window; try done.
  all: repeat split; simpl; lia.
Qed.

Lemma accepted_in_window_bound_witness :
  accepted_in 900000000 100000000
    (allow_run (NewTokenBucket 10 2 second 0)
       (replicate 10 900000000 ++ [1000000000; 1000000000]))
  <= 10 + 2 * (100000000 / second + 1).
Proof.
  apply accepted_in_window_bound.
  - lia.
  - lia.
  - vm_compute. split; [reflexivity|discriminate].
  - vm_compute. discriminate.
  - exact burst_clock_sorted.
  - lia.
Defined.

(** ** Strings *)

Lemma append_cons a (s1 s2 : string) : String a s1 +:+ s2 = String a (s1 +:+ s2).
Proof. reflexivity. Qed.

Lemma append_nil_l (s : string) : "" +:+ s = s.
Proof. reflexivity. Qed.

Lemma append_nil_r (s : string) : s +:+ "" = s.
Proof. induction s as [|a s IH]; [done|]. by rewrite append_cons, IH. Qed.

Lemma append_assoc (s1 s2 s3 : string) : (s1 +:+ s2) +:+ s3 = s1 +:+ s2 +:+ s3.
Proof. induction s1 as [|a s1 IH]; [done|]. by rewrite !append_cons, IH. Qed.

Lemma LastIndexByte_from_absent s c i last :
  has_byte c s = false → LastIndexByte_from s c i last = last.
Proof.
  revert i last. induction s as [|a s IH]; intros i last; simpl; [done|].
  intros [Ha Hs]%orb_false_elim. by rewrite Ha, IH.
Qed.

Lemma LastIndexByte_from_last pre post c i last :
  has_byte c post = false →
  LastIndexByte_from (pre +:+ String c post) c i last
  = i + Z.of_nat (String.length pre).
Proof.
  intros Hpost. revert i last.
  induction pre as [|a pre IH]; intros i last.
  - rewrite append_nil_l. simpl.
    rewrite Ascii.eqb_refl, LastIndexByte_from_absent by done. lia.
  - rewrite append_cons. simpl. rewrite IH. lia.
Qed.

Lemma LastIndex_absent s c : has_byte c s = false → LastIndex s c = -1.
Proof. apply LastIndexByte_from_absent. Qed.

Lemma LastIndex_last pre post c :
  has_byte c post = false →
  LastIndex (pre +:+ String c post) c = Z.of_nat (String.length pre).
Proof. intros H. unfold LastIndex. by rewrite LastIndexByte_from_last. Qed.

Lemma slice_to_append pre post : slice_to (String.length pre) (pre +:+ post) = pre.
Proof.
  induction pre as [|a pre IH].
  - rewrite append_nil_l. by destruct post.
  - rewrite append_cons. simpl. by rewrite IH.
Qed.

Lemma slice_from_after_byte pre c post :
  slice_from (S (String.length pre)) (pre +:+ String c post) = post.
Proof.
  induction pre as [|a pre IH].
  - rewrite append_nil_l. by destruct post.
  - rewrite append_cons. exact IH.
Qed.

Lemma has_byte_split c s :
  has_byte c s = true →
  ∃ pre post, s = pre +:+ String c post ∧ has_byte c post = false.
Proof.
  induction s as [|a s IH]; simpl; [done|].
  destruct (has_byte c s) eqn:Hs.
  - intros _. destruct IH as (pre&post&->&Hpost); [done|].
    by exists (String a pre), post.
  - rewrite orb_false_r. intros ->%Ascii.eqb_eq. by exists "", s.
Qed.

Lemma has_byte_append c s1 s2 :
  has_byte c (s1 +:+ s2) = has_byte c s1 || has_byte c s2.
Proof.
  induction s1 as [|a s1 IH]; [done|].
  rewrite append_cons. simpl. by rewrite IH, orb_assoc.
Qed.

Lemma dotted_exists name :
  has_byte dot name = true → ∃ serviceName methodName, dotted name serviceName methodName.
Proof.
  intros (pre&post&->&Hpost)%has_byte_split. by exists pre, post.
Qed.

Lemma dotted_has_dot name serviceName methodName :
  dotted name serviceName methodName → has_byte dot name = true.
Proof.
  intros [-> _]. rewrite has_byte_append. simpl. by rewrite orb_true_r.
Qed.

(** ** Service lookup *)

Section findService.
Context {Value : Type}.
Implicit Types (server : Server Value).

Lemma findService_ill_formed server name :
  has_byte dot name = false →
  findService server name
  = (None, None, Some ("rpc server: service/method request ill-formed: " +:+ name)).
Proof.
  intros Hno. unfold findService. by rewrite LastIndex_absent.
Qed.

(** With a dot, the lookup is that of the two parts around the last dot. *)
Lemma findService_dotted server name serviceName methodName :
  dotted name serviceName methodName →
  findService server name
  = match serviceMap server !! serviceName with
    | None =>
        (None, None, Some ("rpc server: can't find service " +:+ serviceName))
    | Some svc =>
        match method svc !! methodName with
        | None => (Some svc, None, Some ("rpc server: can't find method " +:+ methodName))
        | Some mtype => (Some svc, Some mtype, None)
        end
    end.
Proof.
  intros [-> Hlast]. unfold findService.
  change ("." +:+ methodName) with (String dot methodName).
  rewrite LastIndex_last by done.
  assert ((Z.of_nat (String.length serviceName) <? 0) = false) as ->
    by (apply Z.ltb_ge; lia).
  rewrite Nat2Z.id.
  replace (Z.to_nat (Z.of_nat (String.length serviceName) + 1))
    with (S (String.length serviceName)) by lia.
  by rewrite slice_to_append, slice_from_after_byte.
Qed.

Lemma Contains_find_service serviceName :
  Contains ("rpc server: can't find service " +:+ serviceName) "can't find service".
Proof. by exists "rpc server: ", (" " +:+ serviceName). Qed.

Lemma Contains_find_method methodName :
  Contains ("rpc server: can't find method " +:+ methodName)
    ("can't find method " +:+ methodName).
Proof. exists "rpc server: ", "". by rewrite append_nil_r. Qed.

(** C7: [findService] returns an error exactly when the name has no dot, or
    the part before its last dot is not a registered service (the error
    contains "can't find service"), or the part after it is not in the
    method table of that service (the error contains "can't find method"
    followed by that part); otherwise it returns the registered service and
    the method type. *)
Theorem findService_spec server name :
  (has_byte dot name = false →
     ∃ err, findService server name = (None, None, Some err)
            ∧ Contains err "ill-formed")
  ∧ (has_byte dot name = true →
     ∃ serviceName methodName, dotted name serviceName methodName)
  ∧ (∀ serviceName methodName, dotted name serviceName methodName →
       match serviceMap server !! serviceName with
       | None =>
           ∃ err, findService server name = (None, None, Some err)
                  ∧ Contains err "can't find service"
       | Some svc =>
           match method svc !! methodName with
           | None =>
               ∃ err, findService server name = (Some svc, None, Some err)
                      ∧ Contains err ("can't find method " +:+ methodName)
           | Some mtype => findService server name = (Some svc, Some mtype, None)
           end
       end)
  ∧ (is_Some (findService server name).2 ↔
       has_byte dot name = false
       ∨ ∃ serviceName methodName,
           dotted name serviceName methodName
           ∧ (serviceMap server !! serviceName = None
              ∨ ∃ svc, serviceMap server !! serviceName = Some svc
                       ∧ method svc !! methodName = None)).
Proof.
  assert (∀ serviceName methodName, dotted name serviceName methodName →
       match serviceMap server !! serviceName with
       | None =>
           ∃ err, findService server name = (None, None, Some err)
                  ∧ Contains err "can't find service"
       | Some svc =>
           match method svc !! methodName with
           | None =>
               ∃ err, findService server name = (Some svc, None, Some err)
                      ∧ Contains err ("can't find method " +:+ methodName)
           | Some mtype => findService server name = (Some svc, Some mtype, None)
           end
       end) as Hparts.
  { intros serviceName methodName Hd.
    rewrite (findService_dotted _ _ _ _ Hd).
    destruct (serviceMap server !! serviceName) as [svc|].
    - destruct (method svc !! methodName) as [mtype|]; [done|].
      eexists. split; [done|]. apply Contains_find_method.
    - eexists. split; [done|]. apply Contains_find_service. }
  split; [|split; [|split]].
  - intros Hno. rewrite findService_ill_formed by done.
    eexists. split; [done|].
    by exists "rpc server: service/method request ", (": " +:+ name).
  - apply dotted_exists.
  - exact Hparts.
  - split.
    + intros Herr. destruct (has_byte dot name) eqn:Hdot; [right|by left].
      destruct (dotted_exists name Hdot) as (serviceName&methodName&Hd).
      exists serviceName, methodName. split; [done|].
      rewrite (findService_dotted _ _ _ _ Hd) in Herr.
      destruct (serviceMap server !! serviceName) as [svc|]; [right|by left].
      exists svc. split; [done|].
      destruct (method svc !! methodName); [|done].
      simpl in Herr. by destruct Herr.
    + intros [Hno|(serviceName&methodName&Hd&Hmiss)].
      * by rewrite findService_ill_formed.
      * rewrite (findService_dotted _ _ _ _ Hd).
        destruct Hmiss as [->|(svc&->&->)]; done.
Qed.
End findService.

(** ** The request loop *)

Example findService_examples :
  findService sample_server "Svc.Echo" = (Some Svc, Some Echo, None)
  ∧ findService sample_server "Svc.Nope"
    = (Some Svc, None, Some "rpc server: can't find method Nope")
  ∧ findService sample_server "Foo.Echo"
    = (None, None, Some "rpc server: can't find service Foo")
  ∧ findService sample_server "a.b.Echo"
    = (None, None, Some "rpc server: can't find service a.b")
  ∧ findService sample_server "Echo"
    = (None, None, Some "rpc server: service/method request ill-formed: Echo").
Proof. repeat split; vm_compute; reflexivity. Qed.

Lemma findService_spec_witness :
  ∃ err,
    findService sample_server "Svc.Nope" = (Some Svc, None, Some err)
    ∧ Contains err "can't find method Nope".
Proof.
  destruct (findService_spec sample_server "Svc.Nope") as (_&_&Hparts&_).
  apply (Hparts "Svc" "Nope"). split; reflexivity.
Defined.

Section loop.
Context {Value C : Type} `{!Codec Value C}.
Implicit Types (server : Server Value) (st : conn (Value:=Value) (C:=C)).

(** An iteration without a token writes one frame and reads nothing. *)
Lemma serveCodec_iter_rejected server opt st now tb' :
  Allow (tb st) now = Some (false, tb') →
  serveCodec_iter server opt st now
  = Continue
      (mkConn
         (Write (cc st) (mkHeader "" 0 "") (BodyString "rate limit exceeded")).1
         tb' (workers st)).
Proof. intros Hallow. unfold serveCodec_iter. by rewrite Hallow. Qed.

Lemma readRequest_body_error server cc0 cc1 cc2 hd svc mt argv' err :
  ReadHeader cc0 = (cc1, inl hd) →
  findService server (ServiceMethod hd) = (svc, Some mt, None) →
  ReadBody cc1 (newArgv mt) = (cc2, argv', Some err) →
  readRequest server cc0
  = Some (cc2,
          Some (mkRequest Value hd (Some argv') (Some (newReplyv mt)) (Some mt) svc),
          Some err).
Proof.
  intros Hh Hfind Hbody. unfold readRequest, readRequestHeader.
  by rewrite Hh, Hfind, Hbody.
Qed.

(** A header that cannot be read ends the loop. *)
Lemma serveCodec_iter_header_error server opt st now tb' cc1 err :
  Allow (tb st) now = Some (true, tb') →
  ReadHeader (cc st) = (cc1, inr err) →
  serveCodec_iter server opt st now = Break (mkConn cc1 tb' (workers st)).
Proof.
  intros Hallow Hh. unfold serveCodec_iter, readRequest, readRequestHeader.
  by rewrite Hallow, Hh.
Qed.

(** C2 (amended): when the header is read and the method is found but the
    body cannot be decoded, the iteration puts the decode error in the
    header, writes it with the placeholder body, launches no worker and goes
    on with the loop: the connection is not ended by the failure. *)
Theorem serveCodec_iter_body_error server opt st now tb' cc1 cc2 hd svc mt argv' err :
  Allow (tb st) now = Some (true, tb') →
  ReadHeader (cc st) = (cc1, inl hd) →
  findService server (ServiceMethod hd) = (svc, Some mt, None) →
  ReadBody cc1 (newArgv mt) = (cc2, argv', Some err) →
  serveCodec_iter server opt st now
  = Continue
      (mkConn (Write cc2 (set_Error hd err) invalidRequest).1 tb' (workers st)).
Proof.
  intros Hallow Hh Hfind Hbody. unfold serveCodec_iter.
  rewrite Hallow. by erewrite readRequest_body_error.
Qed.
End loop.

(** C2, as stated, fails: after a body that cannot be decoded the loop goes on
    and the next request of the connection gets its worker. *)
Lemma body_error_is_not_fatal :
  serveCodec sample_server (peer broken_then_good) DefaultOption 0 [1; 2]
  = Running
      (mkConn
         (mkScript Z []
            [(mkHeader "Svc.Echo" 1 "gob: bad body", invalidRequest)] 0)
         (mkTokenBucket 8 10 2 second 0)
         [(Some (mkRequest Z (mkHeader "Svc.Echo" 2 "") (Some 7) (Some 0) (Some Echo)
                   (Some Svc)), 0)]).
Proof. vm_compute. reflexivity. Qed.

Lemma serveCodec_iter_body_error_witness :
  serveCodec_iter sample_server DefaultOption
    (mkConn (peer broken_then_good) (NewTokenBucket 10 2 second 0) []) 1
  = Continue
      (mkConn
         (Write (mkScript Z (echo_request 2 7) [] 0)
            (set_Error (mkHeader "Svc.Echo" 1 "") "gob: bad body") invalidRequest).1
         (mkTokenBucket 9 10 2 second 0) []).
Proof.
  apply (serveCodec_iter_body_error sample_server DefaultOption
           (mkConn (peer broken_then_good) (NewTokenBucket 10 2 second 0) []) 1
           (mkTokenBucket 9 10 2 second 0)
           (mkScript Z (InError "gob: bad body" :: echo_request 2 7) [] 0)
           (mkScript Z (echo_request 2 7) [] 0)
           (mkHeader "Svc.Echo" 1 "") (Some Svc) Echo 0 "gob: bad body").
  - vm_compute. reflexivity.
  - reflexivity.
  - vm_compute. reflexivity.
  - reflexivity.
Defined.

(** C1: the eleventh iteration within the first second finds the bucket
    empty. The loop goes on and the frames of the eleventh request are left
    unread, but the frame written has an empty [Error]: the text "rate limit
    exceeded" is sent as the body. *)
Theorem rate_limit_frame_has_empty_error :
  ∃ st,
    serveCodec sample_server (peer eleven_requests) DefaultOption 0 (replicate 11 1)
    = Running st
    ∧ written (cc st) = [(mkHeader "" 0 "", BodyString "rate limit exceeded")]
    ∧ to_read (cc st) = echo_request 11 11
    ∧ length (workers st) = 10%nat
    ∧ Error (mkHeader "" 0 "") ≠ "rate limit exceeded".
Proof.
  eexists. split; [vm_compute; reflexivity|].
  repeat split. simpl. discriminate.
Qed.

(** ** Client *)

Section close.
Context {Value C : Type} `{!Codec Value C}.
Implicit Types (client : Client Value C).

Lemma Client_Close_closing client :
  closing client = true → Client_Close client = (client, Some ErrShutdown).
Proof. intros Hc. unfold Client_Close. by rewrite Hc. Qed.

Lemma Close_times_closing n client :
  closing client = true →
  Close_times n client = (client, replicate n (Some ErrShutdown)).
Proof.
  intros Hc. induction n as [|n IH]; simpl; [done|].
  by rewrite Client_Close_closing, IH.
Qed.

(** C8: the first [Close] sets [closing], closes the codec once and returns
    what the codec's [Close] returned; each later call returns
    [ErrShutdown] and leaves the client, its codec included, as it is. *)
Theorem Client_Close_idempotent client (n : nat) :
  closing client = false →
  ∃ client1,
    Client_Close client = (client1, (Close (client_cc client)).2)
    ∧ closing client1 = true
    ∧ client_cc client1 = (Close (client_cc client)).1
    ∧ Client_Close client1 = (client1, Some ErrShutdown)
    ∧ Close_times n client1 = (client1, replicate n (Some ErrShutdown)).
Proof.
  intros Hopen. unfold Client_Close at 1. rewrite Hopen.
  destruct (Close (client_cc client)) as [cc' err] eqn:Hclose.
  eexists. split; [done|]. simpl.
  split; [done|]. split; [done|].
  split; [by apply Client_Close_closing|by apply Close_times_closing].
Qed.
End close.

Lemma Client_Close_idempotent_witness :
  ∃ client1 : Client Z (script Z),
    Client_Close (mkClient Z (script Z) (peer []) DefaultOption 0 ∅ false false)
    = (client1, None)
    ∧ closing client1 = true
    ∧ closes (client_cc client1) = 1%nat
    ∧ Client_Close client1 = (client1, Some ErrShutdown)
    ∧ Close_times 3 client1 = (client1, replicate 3 (Some ErrShutdown)).
Proof.
  destruct (Client_Close_idempotent
              (mkClient Z (script Z) (peer []) DefaultOption 0 ∅ false false) 3
              eq_refl) as (client1&H1&H2&H3&H4&H5).
  exists client1. repeat split; try done.
  by rewrite H3.
Defined.

(** ** The HTTP dial factory *)

(** C9, as stated, fails: the request line is followed by two line feeds, not
    by CR LF CR LF. *)
Lemma NewHTTPClient_writes_bare_line_feeds :
  sent (NewHTTPClient unit_NewClient (answering connected) DefaultOption).1
  = "CONNECT /_geerpc_ HTTP/1.0" +:+ LF +:+ LF
  ∧ sent (NewHTTPClient unit_NewClient (answering connected) DefaultOption).1
    ≠ "CONNECT /_geerpc_ HTTP/1.0" +:+ CR +:+ LF +:+ CR +:+ LF.
Proof. split; [reflexivity|]. vm_compute. discriminate. Qed.

Section dial_spec.
Context {ClientT : Type}.
Variable NewClient : Conn → Option → option ClientT * option error.

(** C9 (amended): the HTTP dial factory writes exactly the request line
    "CONNECT <rpcPath> HTTP/1.0" followed by two line feeds, and hands the
    connection to the raw factory only when the response is parsed and its
    status is exactly "200 Connected to Gee RPC"; any other status and any
    parse failure yield an error and no client. *)
Theorem NewHTTPClient_spec (conn : Conn) (opt : Option) :
  let conn1 :=
    mkNetConn (sent conn +:+ "CONNECT " +:+ defaultRPCPath +:+ " HTTP/1.0" +:+ LF +:+ LF)
      (answer conn) in
  (NewHTTPClient NewClient conn opt).1 = conn1
  ∧ (∀ resp, answer conn = inl resp → Status resp = connected →
       (NewHTTPClient NewClient conn opt).2 = NewClient conn1 opt)
  ∧ (∀ resp, answer conn = inl resp → Status resp ≠ connected →
       (NewHTTPClient NewClient conn opt).2
       = (None, Some ("unexpected HTTP response: " +:+ Status resp)))
  ∧ (∀ err, answer conn = inr err →
       (NewHTTPClient NewClient conn opt).2 = (None, Some err))
  ∧ (is_Some (NewHTTPClient NewClient conn opt).2.1 →
       ∃ resp, answer conn = inl resp ∧ Status resp = connected).
Proof.
  intros conn1. unfold NewHTTPClient, http_ReadResponse, io_WriteString.
  cbn [answer sent]. fold conn1.
  split; [|split; [|split; [|split]]].
  - destruct (answer conn); [case_decide|]; done.
  - intros resp Ha Hs. rewrite Ha. by rewrite decide_True.
  - intros resp Ha Hs. rewrite Ha. by rewrite decide_False.
  - intros err Ha. by rewrite Ha.
  - destruct (answer conn) as [resp|err]; [case_decide|]; simpl; intros Hsome.
    + by exists resp.
    + by destruct Hsome.
    + by destruct Hsome.
Qed.
End dial_spec.

Lemma NewHTTPClient_spec_witness :
  (NewHTTPClient unit_NewClient (answering "200 OK") DefaultOption).2
  = (None, Some "unexpected HTTP response: 200 OK")
  ∧ (NewHTTPClient unit_NewClient (answering connected) DefaultOption).2
    = (Some tt, None).
Proof.
  split.
  - destruct (NewHTTPClient_spec unit_NewClient (answering "200 OK") DefaultOption)
      as (_&_&Hother&_).
    apply (Hother (mkResponse "200 OK")); [reflexivity|].
    vm_compute. discriminate.
  - destruct (NewHTTPClient_spec unit_NewClient (answering connected) DefaultOption)
      as (_&Hok&_).
    apply (Hok (mkResponse connected)); reflexivity.
Defined.

Example NewHTTPClient_examples :
  (NewHTTPClient unit_NewClient (answering connected) DefaultOption).2 = (Some tt, None)
  ∧ (NewHTTPClient unit_NewClient (answering "200 OK") DefaultOption).2
    = (None, Some "unexpected HTTP response: 200 OK")
  ∧ (NewHTTPClient unit_NewClient (mkNetConn "" (inr "malformed HTTP response"))
       DefaultOption).2
    = (None, Some "malformed HTTP response").
Proof. repeat split. Qed.

(** ** Broadcast *)

Module xclient_facts.
Import xclient.

Section broadcast.
Context {Value : Type}.
Implicit Types (s : bstate Value) (log : list (string * call_result Value)).
Implicit Types (init : option Value).

Lemma first_error_snoc log rpcAddr res :
  first_error (log ++ [(rpcAddr, res)])
  = match first_error log with
    | Some err => Some err
    | None => match res with CallErr err => Some err | CallOk _ => None end
    end.
Proof.
  induction log as [|[a [v|err]] log IH]; simpl; [by destruct res|done..].
Qed.

Lemma first_reply_snoc log rpcAddr res :
  first_reply (log ++ [(rpcAddr, res)])
  = match first_reply log with
    | Some v => Some v
    | None => match res with CallOk v => Some v | CallErr _ => None end
    end.
Proof.
  induction log as [|[a [v|err]] log IH]; simpl; [by destruct res|done..].
Qed.

Lemma launched_inv servers init :
  shared_inv servers init (launched servers init).
Proof.
  unfold shared_inv, launched. simpl. rewrite app_nil_r.
  repeat split; try done. by destruct init.
Qed.

(** A critical section keeps the invariant. *)
Lemma bstep_inv servers init s s' :
  shared_inv servers init s → bstep s s' → shared_inv servers init s'.
Proof.
  intros (Hperm&He&Hcancel&Hreply) Hstep.
  destruct Hstep as [s pre rpcAddr post res Hrun].
  assert (pre ++ post ++ ((finished s).*1 ++ [rpcAddr]) ≡ₚ servers) as Hperm'.
  { rewrite <-Hperm, Hrun.
    rewrite <-!(assoc_L (++)). apply Permutation_app_head.
    rewrite (Permutation_app_comm _ [rpcAddr]).
    simpl. symmetry. apply Permutation_middle. }
  unfold shared_inv, finish, critical.
  destruct s as [run fin err rd rep nc ns]. simpl in *.
  destruct res as [v|err']; [destruct rd|destruct err as [err0|]]; simpl;
    rewrite fmap_app, first_error_snoc, first_reply_snoc; simpl;
    rewrite <-(assoc_L (++)); (split; [exact Hperm'|]); rewrite <-He in *.
  - split; [by destruct err|]. split; [rewrite Hcancel; by destruct err|].
    destruct init; [|done].
    destruct (first_reply fin); [done|by destruct Hreply].
  - split; [by destruct err|]. split; [rewrite Hcancel; by destruct err|].
    destruct init; [|by destruct Hreply].
    destruct (first_reply fin); [by destruct Hreply|].
    by destruct Hreply as (_&_&->).
  - split; [done|]. split; [exact Hcancel|].
    destruct init; [|done]. by destruct (first_reply fin).
  - split; [done|]. split; [by rewrite Hcancel|].
    destruct init; [|done]. by destruct (first_reply fin).
Qed.

Lemma reachable_inv servers init s :
  rtc bstep (launched servers init) s → shared_inv servers init s.
Proof.
  revert s. apply rtc_ind_r.
  - apply launched_inv.
  - intros s s' _ Hstep Hinv. by eapply bstep_inv.
Qed.

(** A schedule run is a sequence of steps. *)
Lemma run_branches_steps sched : ∀ s s',
  run_branches s sched = Some s' → rtc bstep s s'.
Proof.
  induction sched as [|[i res] sched IH]; intros s s'; simpl.
  - intros [= ->]. done.
  - destruct (running s !! i) as [rpcAddr|] eqn:Hi; [|done].
    intros Hrest. eapply rtc_l; [|by apply IH].
    constructor. by rewrite take_drop_middle.
Qed.

(** C3: for a [Broadcast] with a non-nil [reply], the caller's reply is
    assigned at most once, by the first branch whose call succeeded (later
    successes leave it alone); [cancel] is called once, by the first branch
    whose call failed, and not at all without a failure; and [Broadcast]
    returns the error of that branch, or nil when no branch failed - where
    "first" is the order in which the branches take the lock. At every
    state [s0] on the way, [cancel] has been called exactly if a call has
    failed by then. When [GetAll] fails, its error is returned and no
    branch is run. *)
Theorem Broadcast_spec getall init s ret :
  is_Some init →
  Broadcast getall init s ret →
  (sets s <= 1)%nat
  ∧ match first_reply (finished s) with
    | Some v => sets s = 1%nat ∧ reply s = Some v
    | None => sets s = 0%nat ∧ reply s = init
    end
  ∧ cancels s = (if first_error (finished s) is Some _ then 1 else 0)%nat
  ∧ ret = match getall with
          | inr err => Some err
          | inl _ => first_error (finished s)
          end
  ∧ (∀ servers, getall = inl servers → (finished s).*1 ≡ₚ servers)
  ∧ (∀ servers s0,
       getall = inl servers →
       rtc bstep (launched servers init) s0 →
       rtc bstep s0 s →
       e s0 = first_error (finished s0)
       ∧ cancels s0 = (if first_error (finished s0) is Some _ then 1 else 0)%nat
       ∧ (sets s0 <= 1)%nat).
Proof.
  intros [v0 ->] Hb.
  assert (∀ servers s0,
       rtc bstep (launched servers (Some v0)) s0 →
       e s0 = first_error (finished s0)
       ∧ cancels s0 = (if first_error (finished s0) is Some _ then 1 else 0)%nat
       ∧ (sets s0 <= 1)%nat) as Hway.
  { intros servers s0 (_&He&Hcancel&Hreply)%reachable_inv.
    split; [done|]. split; [done|].
    destruct (first_reply (finished s0)); destruct Hreply as (_&_&->); lia. }
  destruct Hb as [err ->|servers s -> Hrun Hend].
  - simpl. repeat split; try done. lia.
  - apply reachable_inv in Hrun as (Hperm&He&Hcancel&Hreply).
    rewrite Hend in Hperm. simpl in Hperm.
    assert ((sets s <= 1)%nat
            ∧ match first_reply (finished s) with
              | Some v => sets s = 1%nat ∧ reply s = Some v
              | None => sets s = 0%nat ∧ reply s = Some v0
              end) as [Hsets Hfirst].
    { destruct (first_reply (finished s)); destruct Hreply as (_&->&->);
        split; try done; lia. }
    split; [done|]. split; [done|]. split; [done|]. split; [done|].
    split; [by intros ? [= <-]|].
    intros servers' s0 [= <-] Hs0 _. by apply (Hway servers).
Qed.
End broadcast.

(** Three servers; the branch of "b" succeeds first, then that of "a" fails,
    then that of "c" succeeds. *)
Lemma Broadcast_spec_witness :
  ∃ s : bstate Z,
    Broadcast (inl ["a"; "b"; "c"]) (Some 0) s (Some "boom")
    ∧ finished s = [("b", CallOk 5); ("a", CallErr "boom"); ("c", CallOk 7)]
    ∧ sets s = 1%nat ∧ reply s = Some 5 ∧ cancels s = 1%nat.
Proof.
  pose (sched := [(1%nat, CallOk 5); (0%nat, CallErr "boom"); (0%nat, CallOk 7)]
                 : list (nat * call_result Z)).
  destruct (run_branches (launched ["a"; "b"; "c"] (Some 0)) sched) as [s|] eqn:Hs;
    [|discriminate Hs].
  injection Hs as Hs.
  assert (Broadcast (inl ["a"; "b"; "c"]) (Some 0) s (Some "boom")) as Hb.
  { rewrite <-Hs.
    apply (Broadcast_waited (inl ["a"; "b"; "c"]) (Some 0) ["a"; "b"; "c"]
             (mkB Z [] [("b", CallOk 5); ("a", CallErr "boom"); ("c", CallOk 7)]
                (Some "boom") true (Some 5) 1 1)); [done| |done].
    by apply (run_branches_steps sched). }
  exists s. split; [exact Hb|].
  pose proof (Broadcast_spec _ _ _ _ (mk_is_Some _ _ eq_refl) Hb) as (_&Hr&Hc&_).
  rewrite <-Hs in *. simpl in *. destruct Hr as [? ?]. done.
Defined.
End xclient_facts.

(** ** Round-robin selection *)

Module discovery_facts.
Import xclient.

Lemma rotate_Permutation {A} (k : nat) (l : list A) : rotate k l ≡ₚ l.
Proof.
  unfold rotate. rewrite Permutation_app_comm. by rewrite take_drop.
Qed.

Section round_robin.
Context {Rand : Type}.
Variable Intn : Rand → Z → Z * Rand.
Implicit Types (d : MultiServersDiscovery Rand).

Lemma Get_RoundRobin d :
  usable d →
  ∃ s,
    servers d !! Z.to_nat (index d `mod` len (servers d)) = Some s
    ∧ Get Intn d RoundRobinSelect
      = Some (s, None,
              mkDiscovery Rand (r d) (servers d)
                ((index d + 1) `mod` len (servers d))).
Proof.
  intros (Hne&Hlen&Hidx). unfold Get.
  assert (0 < len (servers d)) as Hn.
  { unfold len. destruct (servers d); [done|]. simpl. lia. }
  set (n := len (servers d)) in *.
  assert ((n =? 0) = false) as -> by (apply Z.eqb_neq; lia).
  change (RoundRobinSelect =? RandomSelect) with false.
  change (RoundRobinSelect =? RoundRobinSelect) with true. cbv iota.
  pose proof (Z.mod_pos_bound (index d) n Hn) as Hm.
  pose proof (Z.mod_pos_bound (index d + 1) n Hn) as Hm1.
  assert (rem64 (index d) n = index d `mod` n) as ->.
  { unfold rem64. rewrite Z.rem_mod_nonneg by lia.
    apply wrap64_small. fits. }
  assert (rem64 (add64 (index d) 1) n = (index d + 1) `mod` n) as ->.
  { unfold rem64, add64.
    rewrite (wrap64_small (index d + 1)) by fits.
    rewrite Z.rem_mod_nonneg by lia.
    apply wrap64_small. fits. }
  unfold go_index.
  assert ((index d `mod` n <? 0) = false) as -> by (apply Z.ltb_ge; lia).
  destruct (lookup_lt_is_Some_2 (servers d) (Z.to_nat (index d `mod` n)))
    as [s Hs]; [unfold n, len in *; lia|].
  exists s. by rewrite Hs.
Qed.

Lemma Get_RoundRobin_usable d s d' :
  usable d → Get Intn d RoundRobinSelect = Some (s, None, d') → usable d'.
Proof.
  intros Hd Hget. destruct (Get_RoundRobin d Hd) as (s'&_&Hget').
  rewrite Hget' in Hget. injection Hget as _ <-.
  destruct Hd as (Hne&Hlen&Hidx). unfold usable. cbn [servers index].
  assert (0 < len (servers d)) as Hn.
  { unfold len. destruct (servers d); [done|]. simpl. lia. }
  pose proof (Z.mod_pos_bound (index d + 1) (len (servers d)) Hn).
  split; [done|]. lia.
Qed.

(** [k] calls in a row return the servers at the [k] positions that follow
    the starting index, modulo the length. *)
Lemma Get_times_lookup k : ∀ d,
  usable d →
  ∃ out d',
    Get_times Intn k d RoundRobinSelect = Some (out, d')
    ∧ length out = k
    ∧ (∀ j, (j < k)%nat →
         out !! j
         = servers d !! Z.to_nat ((index d + Z.of_nat j) `mod` len (servers d)))
    ∧ servers d' = servers d
    ∧ r d' = r d
    ∧ index d'
      = match k with
        | O => index d
        | S _ => (index d + Z.of_nat k) `mod` len (servers d)
        end.
Proof.
  induction k as [|k IH]; intros d Hd.
  - exists [], d. simpl. repeat split; try done. intros j Hj. lia.
  - destruct (Get_RoundRobin d Hd) as (s&Hs&Hget).
    pose proof (Get_RoundRobin_usable d _ _ Hd Hget) as Hd1.
    destruct (IH _ Hd1) as (out&d'&Hrun&Hlen&Hout&Hsrv&Hr&Hidx).
    simpl in Hout, Hsrv, Hr, Hidx.
    exists (s :: out), d'. simpl. rewrite Hget, Hrun.
    assert (0 < len (servers d)) as Hn.
    { destruct Hd as (Hne&_). unfold len.
      destruct (servers d); [done|]. simpl. lia. }
    split; [done|]. split; [by rewrite Hlen|].
    split; [|split; [done|split; [done|]]].
    + intros [|j] Hj.
      * simpl. by rewrite Z.add_0_r.
      * simpl. rewrite Hout by lia. f_equal. f_equal.
        rewrite Zplus_mod_idemp_l. f_equal. lia.
    + rewrite Hidx. destruct k as [|k'].
      * f_equal.
      * rewrite Zplus_mod_idemp_l. f_equal. lia.
Qed.

(** C6: for a discovery with a static non-empty list of [n] servers and
    any index it can hold, a [Get(RoundRobinSelect)] returns the server at
    [index mod n] and advances the index to [(index + 1) mod n], and [n]
    calls in a row return the list rotated to start there: each server
    exactly once. *)
Theorem RoundRobin_each_server_once d :
  servers d ≠ [] →
  len (servers d) <= max_int64 →
  0 <= index d < max_int64 →
  let n := len (servers d) in
  (∃ s,
     servers d !! Z.to_nat (index d `mod` n) = Some s
     ∧ Get Intn d RoundRobinSelect
       = Some (s, None, mkDiscovery Rand (r d) (servers d) ((index d + 1) `mod` n)))
  ∧ ∃ out,
      Get_times Intn (length (servers d)) d RoundRobinSelect
      = Some (out, mkDiscovery Rand (r d) (servers d) (index d `mod` n))
      ∧ out = rotate (Z.to_nat (index d `mod` n)) (servers d)
      ∧ out ≡ₚ servers d.
Proof.
  intros Hne Hlen Hidx n.
  assert (usable d) as Hd by done.
  split; [by apply Get_RoundRobin|].
  destruct (Get_times_lookup (length (servers d)) d Hd)
    as (out&d'&Hrun&Hout_len&Hout&Hsrv&Hr&Hidx').
  assert (0 < n) as Hn.
  { unfold n, len. destruct (servers d); [done|]. simpl. lia. }
  assert (out = rotate (Z.to_nat (index d `mod` n)) (servers d)) as Hrot.
  { apply list_eq. intros j.
    destruct (decide (j < length (servers d))%nat) as [Hj|Hj].
    - rewrite Hout, lookup_rotate_r by done. f_equal.
      unfold rotate_nat_add. f_equal.
      pose proof (Z.mod_pos_bound (index d) n Hn).
      rewrite Z2Nat.id by lia. fold (len (servers d)). fold n.
      by rewrite Zplus_mod_idemp_l.
    - rewrite !lookup_ge_None_2; [done| |]; rewrite ?length_rotate; lia. }
  exists out. split; [|split; [done|]].
  - rewrite Hrun. f_equal. f_equal. destruct d' as [r' l' i']. simpl in *.
    subst r' l'. f_equal. rewrite Hidx'.
    destruct (length (servers d)) eqn:Hl.
    + destruct (servers d); done.
    + rewrite <-Hl. fold (len (servers d)). fold n.
      rewrite <-(Z.mul_1_l n) at 1. by rewrite Z.mod_add by lia.
  - rewrite Hrot. apply rotate_Permutation.
Qed.
End round_robin.

Example Get_times_round_robin :
  Get_times (λ (_ : unit) _, (0, tt)) 3 (mkDiscovery unit tt ["a"; "b"; "c"] 7)
    RoundRobinSelect
  = Some (["b"; "c"; "a"], mkDiscovery unit tt ["a"; "b"; "c"] 1).
Proof. vm_compute. reflexivity. Qed.

Lemma RoundRobin_each_server_once_witness :
  ∃ out,
    Get_times (λ (_ : unit) _, (0, tt)) 3 (mkDiscovery unit tt ["a"; "b"; "c"] 7)
      RoundRobinSelect
    = Some (out, mkDiscovery unit tt ["a"; "b"; "c"] 1)
    ∧ out ≡ₚ ["a"; "b"; "c"].
Proof.
  assert (len ["a"; "b"; "c"] <= max_int64) as Hlen by (vm_compute; discriminate).
  assert (0 <= 7 < max_int64) as Hidx by (unfold max_int64; lia).
  destruct (RoundRobin_each_server_once (λ (_ : unit) _, (0, tt))
              (mkDiscovery unit tt ["a"; "b"; "c"] 7)
              ltac:(discriminate) Hlen Hidx) as (_&out&Hrun&_&Hperm).
  exists out. split; [exact Hrun|exact Hperm].
Defined.
End discovery_facts.

(** ** The order of [sort.Strings] *)

Lemma ascii_compare_Lt_trans a b c :
  Ascii.compare a b = Lt → Ascii.compare b c = Lt → Ascii.compare a c = Lt.
Proof.
  unfold Ascii.compare. rewrite !N.compare_lt_iff. lia.
Qed.

Lemma string_compare_le_trans s1 : ∀ s2 s3,
  String.compare s1 s2 ≠ Gt → String.compare s2 s3 ≠ Gt → String.compare s1 s3 ≠ Gt.
Proof.
  induction s1 as [|a1 s1 IH]; intros [|a2 s2] [|a3 s3]; simpl; try done.
  destruct (Ascii.compare a1 a2) eqn:H12; [| |done].
  - apply Ascii.compare_eq_iff in H12 as ->.
    destruct (Ascii.compare a2 a3); [apply IH|done|done].
  - intros _. destruct (Ascii.compare a2 a3) eqn:H23; [| |done].
    + apply Ascii.compare_eq_iff in H23 as <-. by rewrite H12.
    + by rewrite (ascii_compare_Lt_trans _ _ _ H12 H23).
Qed.

Lemma string_le_compare s1 s2 : string_le s1 s2 ↔ String.compare s1 s2 ≠ Gt.
Proof. unfold string_le, String.leb. by destruct (String.compare s1 s2). Qed.

#[global] Instance string_le_trans : Transitive string_le.
Proof.
  intros s1 s2 s3. rewrite !string_le_compare. apply string_compare_le_trans.
Qed.

#[global] Instance string_le_total : Total string_le.
Proof. intros s1 s2. apply String.leb_total. Qed.

#[global] Instance string_le_antisym : AntiSymm (=) string_le.
Proof. intros s1 s2. apply String.leb_antisym. Qed.

Lemma sort_Strings_sorted l : StronglySorted string_le (sort_Strings l).
Proof. apply StronglySorted_merge_sort; apply _. Qed.

Lemma sort_Strings_Permutation l : sort_Strings l ≡ₚ l.
Proof. apply merge_sort_Permutation. Qed.

(** The result of the sort does not depend on the order in which the
    addresses were collected. *)
Lemma sort_Strings_order_irrelevant l1 l2 :
  l1 ≡ₚ l2 → sort_Strings l1 = sort_Strings l2.
Proof.
  intros Hperm. apply (StronglySorted_unique string_le);
    [apply sort_Strings_sorted..|].
  by rewrite !sort_Strings_Permutation.
Qed.

(** ** The registry *)

Module registry_facts.
Import registry.

Lemma alive_not_expired r s now : alive r s now = true ↔ ¬ expired r s now.
Proof.
  unfold alive, expired, Time_After, Time_Add.
  rewrite orb_true_iff, Z.eqb_eq, Z.ltb_lt. lia.
Qed.

Lemma aliveServers_registry r clock addr s :
  servers (aliveServers r clock).2 !! addr = Some s
  ↔ servers r !! addr = Some s ∧ ¬ expired r s (clock addr).
Proof.
  unfold aliveServers. cbn [snd servers].
  rewrite map_lookup_filter_Some. cbn [fst snd]. by rewrite alive_not_expired.
Qed.

Lemma aliveServers_list r clock addr :
  addr ∈ (aliveServers r clock).1
  ↔ ∃ s, servers r !! addr = Some s ∧ ¬ expired r s (clock addr).
Proof.
  unfold aliveServers. cbn [fst].
  rewrite sort_Strings_Permutation, list_elem_of_fmap. split.
  - intros ([addr' s]&->&Hin). exists s.
    apply elem_of_map_to_list, map_lookup_filter_Some in Hin as [Hs Halive].
    cbn [fst snd] in *. by rewrite <-alive_not_expired.
  - intros (s&Hs&Halive). exists (addr, s). split; [done|].
    apply elem_of_map_to_list, map_lookup_filter_Some. split; [done|].
    cbn [fst snd]. by apply alive_not_expired.
Qed.

Lemma aliveServers_NoDup r clock : NoDup (aliveServers r clock).1.
Proof.
  unfold aliveServers. cbn [fst].
  rewrite sort_Strings_Permutation. apply NoDup_fst_map_to_list.
Qed.

Lemma aliveServers_no_timeout r clock :
  timeout r = 0 → servers (aliveServers r clock).2 = servers r.
Proof.
  intros Hzero. apply map_eq. intros addr.
  apply option_eq. intros s. rewrite aliveServers_registry.
  unfold expired. split; [by intros [? _]|]. intros Hs. split; [done|]. lia.
Qed.

Lemma ServeHTTP_GET r req clock now :
  Method req = "GET" →
  ServeHTTP r req clock now
  = ((aliveServers r clock).2,
     mkResponseWriter StatusOK
       {[ "X-Geerpc-Servers" := Join (aliveServers r clock).1 "," ]}).
Proof.
  intros Hget. unfold ServeHTTP. rewrite decide_True by done.
  by destruct (aliveServers r clock).
Qed.

(** C5: a [GET] answers with the header [X-Geerpc-Servers] holding the
    alive addresses, sorted and joined by commas. An entry is alive unless
    the timeout is not 0 and [lastSeen + timeout <= now] at the reading
    taken for it; the other entries are deleted from the map during the
    scan, and with a timeout of 0 nothing is deleted. Hence a server whose
    last heartbeat is older than the (non-zero) timeout is absent from the
    response. *)
Theorem GET_returns_alive_servers r req clock now :
  Method req = "GET" →
  ∃ alive_list,
    (ServeHTTP r req clock now).2
    = mkResponseWriter StatusOK {[ "X-Geerpc-Servers" := Join alive_list "," ]}
    ∧ StronglySorted string_le alive_list
    ∧ NoDup alive_list
    ∧ (∀ addr, addr ∈ alive_list
         ↔ ∃ s, servers r !! addr = Some s ∧ ¬ expired r s (clock addr))
    ∧ timeout (ServeHTTP r req clock now).1 = timeout r
    ∧ (∀ addr s, servers (ServeHTTP r req clock now).1 !! addr = Some s
         ↔ servers r !! addr = Some s ∧ ¬ expired r s (clock addr))
    ∧ (∀ addr s, servers r !! addr = Some s →
         timeout r ≠ 0 → start s + timeout r <= clock addr →
         (addr ∉ alive_list)
         ∧ servers (ServeHTTP r req clock now).1 !! addr = None)
    ∧ (timeout r = 0 → servers (ServeHTTP r req clock now).1 = servers r).
Proof.
  intros Hget. rewrite (ServeHTTP_GET _ _ _ _ Hget). cbn [fst snd].
  exists (aliveServers r clock).1.
  split; [done|]. split; [apply sort_Strings_sorted|].
  split; [apply aliveServers_NoDup|]. split; [apply aliveServers_list|].
  split; [done|]. split; [apply aliveServers_registry|].
  split; [|apply aliveServers_no_timeout].
  intros addr s Hs Hto Hold. split.
  - rewrite aliveServers_list. intros (s'&Hs'&Halive).
    apply Halive. rewrite Hs in Hs'. injection Hs' as <-. done.
  - apply eq_None_not_Some. intros [s' Hs'].
    apply aliveServers_registry in Hs' as [Hs' Halive].
    apply Halive. rewrite Hs in Hs'. injection Hs' as <-. done.
Qed.

Example GET_sample_registry :
  ServeHTTP sample_registry GET (λ _, 6 * second) 0
  = (mkRegistry (3 * second)
       {[ "b" := mkServerItem "b" (5 * second); "c" := mkServerItem "c" (4 * second) ]},
     mkResponseWriter StatusOK {[ "X-Geerpc-Servers" := "b,c" ]}).
Proof. vm_compute. reflexivity. Qed.

Lemma GET_returns_alive_servers_witness :
  ∃ alive_list,
    (ServeHTTP sample_registry GET (λ _, 6 * second) 0).2
    = mkResponseWriter StatusOK {[ "X-Geerpc-Servers" := Join alive_list "," ]}
    ∧ ("a" ∉ alive_list)
    ∧ servers (ServeHTTP sample_registry GET (λ _, 6 * second) 0).1 !! "a" = None.
Proof.
  destruct (GET_returns_alive_servers sample_registry GET (λ _, 6 * second) 0 eq_refl)
    as (alive_list&Hresp&_&_&_&_&_&Hold&_).
  exists alive_list. split; [exact Hresp|].
  apply (Hold "a" (mkServerItem "a" 0)).
  - vm_compute. reflexivity.
  - vm_compute. discriminate.
  - vm_compute. discriminate.
Defined.
End registry_facts.

(** * Further properties *)

(** ** The token bucket, continued *)

(** X1: counted from the making of the bucket, the bound needs no slack: of
    the [Allow] calls made in the first [T] nanoseconds at most
    [C + R * floor(T / I)] are answered [true]. *)
Theorem accepted_since_creation (C R : Z) (I : Duration) (t0 : Time)
    (clock : list Time) (T : Z) :
  0 <= C → 0 <= R → 0 < I <= max_int64 →
  C + R * (max_int64 / I) <= max_int64 →
  StronglySorted Z.le (t0 :: clock) →
  0 <= T →
  accepted_in t0 T (allow_run (NewTokenBucket C R I t0) clock) <= C + R * (T / I).
Proof.
  intros HC HR HI Hfit Hsorted HT.
  pose proof (accepted_upto C R I HC HR HI Hfit t0 T clock
                (NewTokenBucket C R I t0)) as Hup.
  simpl in Hup. replace (t0 + T - t0) with T in Hup by lia.
  apply Hup; [|done|lia]. repeat split; simpl; lia.
Qed.

Lemma accepted_since_creation_witness :
  accepted_in 0 1500000000
    (allow_run (NewTokenBucket 10 2 second 0)
       (replicate 10 900000000 ++ [1000000000; 1000000000]))
  <= 10 + 2 * (1500000000 / second).
Proof.
  apply accepted_since_creation.
  - lia.
  - lia.
  - vm_compute. split; [reflexivity|discriminate].
  - vm_compute. discriminate.
  - exact burst_clock_sorted.
  - lia.
Defined.

(** X2: a bucket without tokens (capacity and refill amount at least 1)
    answers the next call [true] exactly when a whole interval has passed
    since the last refill; when it answers [false] it is left as it was. *)
Theorem empty_bucket_admits_after_interval (C R : Z) (I : Duration)
    (tb : TokenBucket) (now : Time) (ok : bool) (tb' : TokenBucket) :
  1 <= C → 1 <= R → 0 < I <= max_int64 →
  C + R * (max_int64 / I) <= max_int64 →
  bucket_of C R I tb →
  tokens tb = 0 →
  lastRefill tb <= now →
  Allow tb now = Some (ok, tb') →
  (ok = true ↔ I <= now - lastRefill tb) ∧ (ok = false → tb' = tb).
Proof.
  intros HC HR HI Hfit Hgood Hempty Hlr Hallow.
  destruct (tokensToAdd_exact C R I ltac:(lia) ltac:(lia) HI Hfit tb now Hgood Hlr)
    as [Hadd Hrange].
  destruct Hgood as (Hc&Hr&Hi&Hinv).
  unfold Allow in Hallow. rewrite Hi in Hallow.
  assert ((I =? 0) = false) as HI0 by (apply Z.eqb_neq; lia).
  rewrite HI0 in Hallow. cbv zeta in Hallow.
  set (d := now - lastRefill tb) in *.
  destruct (decide (I <= d)) as [Hlong|Hshort].
  - assert (1 <= Z.min max_int64 d / I) as Hq.
    { apply Z.div_le_lower_bound; lia. }
    assert (0 < tokensToAdd tb now) as Hpos by nia.
    assert (0 < tokens (refill tb now)) as Hrefilled.
    { unfold refill. apply Z.ltb_lt in Hpos. rewrite Hpos. simpl.
      apply Z.ltb_lt in Hpos. rewrite Hempty. unfold add64.
      rewrite wrap64_small by (unfold int64, min_int64; nia).
      destruct (capacity tb <? 0 + tokensToAdd tb now); lia. }
    apply Z.ltb_lt in Hrefilled. rewrite Hrefilled in Hallow.
    injection Hallow as <- _. split; [done|done].
  - assert (Z.min max_int64 d / I = 0) as Hq.
    { apply Z.div_small. unfold max_int64 in *. lia. }
    assert (refill tb now = tb) as Hsame.
    { unfold refill. rewrite Hadd, Hq. by simpl. }
    rewrite Hsame, Hempty in Hallow. simpl in Hallow.
    injection Hallow as <- <-. split; [|done].
    split; [done|lia].
Qed.

Lemma empty_bucket_admits_after_interval_witness :
  (true = true ↔ second <= 1000000000 - 0)
  ∧ (true = false → mkTokenBucket 1 10 2 second 1000000000
                    = mkTokenBucket 0 10 2 second 0).
Proof.
  apply (empty_bucket_admits_after_interval 10 2 second
           (mkTokenBucket 0 10 2 second 0) 1000000000 true
           (mkTokenBucket 1 10 2 second 1000000000)).
  - lia.
  - lia.
  - vm_compute. split; [reflexivity|discriminate].
  - vm_compute. discriminate.
  - repeat split; simpl; lia.
  - reflexivity.
  - simpl. lia.
  - vm_compute. reflexivity.
Defined.

(** ** The request loop, continued *)

Section loop_facts.
Context {Value C : Type} `{!Codec Value C}.
Implicit Types (server : Server Value) (st : conn (Value:=Value) (C:=C)).

(** A lookup without error has found a method. *)
Lemma findService_method_found server name svc :
  findService server name ≠ (svc, None, None).
Proof.
  unfold findService. destruct (LastIndex name dot <? 0); [done|].
  destruct (serviceMap server !! _) as [s|]; [|done].
  by destruct (method s !! _).
Qed.

Lemma readRequest_returns server cc0 : readRequest server cc0 ≠ None.
Proof.
  unfold readRequest, readRequestHeader.
  destruct (ReadHeader cc0) as [cc1 [hd|err]]; [|done].
  destruct (findService server (ServiceMethod hd)) as [[svc mt] err] eqn:Hfind.
  destruct mt as [mt|], err as [err|]; try done.
  - by destruct (ReadBody cc1 (newArgv mt)) as [[cc2 argv'] err].
  - by apply findService_method_found in Hfind.
Qed.

(** Without a request there was no header. *)
Lemma readRequest_no_request server cc0 cc1 err :
  readRequest server cc0 = Some (cc1, None, err) →
  ∃ err', err = Some err' ∧ ReadHeader cc0 = (cc1, inr err').
Proof.
  unfold readRequest, readRequestHeader.
  destruct (ReadHeader cc0) as [cc1' [hd|err']].
  - destruct (findService server (ServiceMethod hd)) as [[svc mt] e].
    destruct mt as [mt|], e as [e|]; try done.
    by destruct (ReadBody cc1' (newArgv mt)) as [[cc2 argv'] e'].
  - intros [= <- <-]. by exists err'.
Qed.

Lemma serveCodec_iter_Break server opt st now st' :
  serveCodec_iter server opt st now = Break st' →
  ∃ err, ReadHeader (cc st) = (cc st', inr err) ∧ workers st' = workers st.
Proof.
  unfold serveCodec_iter.
  destruct (Allow (tb st) now) as [[[|] tb']|]; [|done..].
  destruct (readRequest server (cc st)) as [[[cc1 req] err]|] eqn:Hread; [|done].
  destruct err as [err|]; [|done]. destruct req as [req|]; [done|].
  intros [= <-]. simpl.
  apply readRequest_no_request in Hread as (err'&_&Hh). by exists err'.
Qed.

Lemma serveCodec_iter_bucket server opt st now :
  bucket_of 10 2 second (tb st) →
  match serveCodec_iter server opt st now with
  | Continue st' | Break st' => bucket_of 10 2 second (tb st')
  | Panic => False
  end.
Proof.
  intros Hgood. pose proof (server_bucket_inv [now] (tb st) Hgood) as Hnext.
  simpl in Hnext. unfold serveCodec_iter.
  destruct (Allow (tb st) now) as [[ok tb']|] eqn:Hallow.
  - destruct ok; [|done].
    pose proof (readRequest_returns server (cc st)) as Hret.
    destruct (readRequest server (cc st)) as [[[cc1 req] err]|]; [|done].
    destruct err as [err|]; [|done]. by destruct req.
  - unfold Allow in Hallow. destruct Hgood as (_&_&Hi&_). rewrite Hi in Hallow.
    simpl in Hallow. by destruct (0 <? tokens (refill (tb st) now)).
Qed.

Lemma serveCodec_loop_no_panic server opt clock : ∀ st,
  bucket_of 10 2 second (tb st) →
  serveCodec_loop server opt st clock ≠ Panicked.
Proof.
  induction clock as [|now clock IH]; intros st Hgood; simpl; [done|].
  pose proof (serveCodec_iter_bucket server opt st now Hgood) as Hiter.
  destruct (serveCodec_iter server opt st now) as [st'|st'|]; [by apply IH|done|done].
Qed.

Lemma serveCodec_loop_Closed server opt clock : ∀ st0 st,
  serveCodec_loop server opt st0 clock = Closed st →
  ∃ cc_before cc_after err,
    ReadHeader cc_before = (cc_after, inr err) ∧ cc st = (Close cc_after).1.
Proof.
  induction clock as [|now clock IH]; intros st0 st; simpl; [done|].
  destruct (serveCodec_iter server opt st0 now) as [st'|st'|] eqn:Hiter; [|  |done].
  - apply IH.
  - intros [= <-]. apply serveCodec_iter_Break in Hiter as (err&Hh&_).
    by exists (cc st0), (cc st'), err.
Qed.

(** X3: whatever the codec, the services and the clock, [serveCodec] does
    not panic: its bucket never divides by zero and a request whose method
    was looked up without error has a method type. *)
Theorem serveCodec_never_panics server (cc0 : C) opt start clock :
  serveCodec server cc0 opt start clock ≠ Panicked.
Proof.
  unfold serveCodec. apply serveCodec_loop_no_panic.
  repeat split; simpl; lia.
Qed.

(** X4: [serveCodec] leaves its loop only when a header could not be read
    (rate-limit rejections, unknown methods and bodies that fail to decode
    keep it running), and it then closes the codec that read left behind. *)
Theorem serveCodec_closes_after_header_error server (cc0 : C) opt start clock st :
  serveCodec server cc0 opt start clock = Closed st →
  ∃ cc_before cc_after err,
    ReadHeader cc_before = (cc_after, inr err) ∧ cc st = (Close cc_after).1.
Proof. unfold serveCodec. apply serveCodec_loop_Closed. Qed.

(** X5: when the header is read but the service or method is not found,
    the iteration does not read the body: it writes the header with the
    lookup error and the placeholder body to the codec as [ReadHeader] left
    it, launches no worker and goes on. *)
Theorem serveCodec_iter_dispatch_error server opt st now tb' cc1 hd svc mt err :
  Allow (tb st) now = Some (true, tb') →
  ReadHeader (cc st) = (cc1, inl hd) →
  findService server (ServiceMethod hd) = (svc, mt, Some err) →
  serveCodec_iter server opt st now
  = Continue
      (mkConn (Write cc1 (set_Error hd err) invalidRequest).1 tb' (workers st)).
Proof.
  intros Hallow Hh Hfind. unfold serveCodec_iter, readRequest, readRequestHeader.
  rewrite Hallow, Hh, Hfind. by destruct mt.
Qed.
End loop_facts.

Lemma serveCodec_closes_after_header_error_witness :
  ∃ cc_before cc_after err,
    ReadHeader cc_before = (cc_after, inr err)
    ∧ mkScript Z [] [] 1 = (Close cc_after).1.
Proof.
  apply (serveCodec_closes_after_header_error sample_server
           (peer (echo_request 1 5)) DefaultOption 0 [1; 2]
           (mkConn (mkScript Z [] [] 1) (mkTokenBucket 8 10 2 second 0)
              [(Some (mkRequest Z (mkHeader "Svc.Echo" 1 "") (Some 5) (Some 0)
                        (Some Echo) (Some Svc)), 0)])).
  vm_compute. reflexivity.
Defined.

Lemma serveCodec_iter_dispatch_error_witness :
  serveCodec_iter sample_server DefaultOption
    (mkConn (peer [InHeader (mkHeader "Svc.Nope" 3 ""); InBody 5])
       (NewTokenBucket 10 2 second 0) []) 1
  = Continue
      (mkConn
         (mkScript Z [InBody 5]
            [(mkHeader "Svc.Nope" 3 "rpc server: can't find method Nope",
              invalidRequest)] 0)
         (mkTokenBucket 9 10 2 second 0) []).
Proof.
  etrans.
  { apply (serveCodec_iter_dispatch_error sample_server DefaultOption
             (mkConn (peer [InHeader (mkHeader "Svc.Nope" 3 ""); InBody 5])
                (NewTokenBucket 10 2 second 0) []) 1
             (mkTokenBucket 9 10 2 second 0)
             (mkScript Z [InBody 5] [] 0)
             (mkHeader "Svc.Nope" 3 "") (Some Svc) None
             "rpc server: can't find method Nope").
    - vm_compute. reflexivity.
    - reflexivity.
    - vm_compute. reflexivity. }
  reflexivity.
Defined.

(** ** The client, continued *)

Section unavailable.
Context {Value C : Type} `{!Codec Value C}.
Implicit Types (client : Client Value C).

Lemma Client_Close_sets_closing client : closing (Client_Close client).1 = true.
Proof.
  unfold Client_Close. destruct (closing client) eqn:Hc; [done|].
  by destruct (Close (client_cc client)).
Qed.

(** [Close] touches the flag and the codec only. *)
Lemma Client_Close_keeps client :
  seq (Client_Close client).1 = seq client
  ∧ pending (Client_Close client).1 = pending client
  ∧ shutdown (Client_Close client).1 = shutdown client
  ∧ opt (Client_Close client).1 = opt client.
Proof.
  unfold Client_Close. destruct (closing client); [done|].
  by destruct (Close (client_cc client)).
Qed.

(** X6: whatever its state, a client is unavailable once [Close] has been
    called on it, and stays so under any number of further [Close] calls;
    its sequence number and its pending calls are left alone. *)
Theorem closed_client_is_unavailable client (n : nat) :
  IsAvailable (Client_Close client).1 = false
  ∧ IsAvailable (Close_times n (Client_Close client).1).1 = false
  ∧ seq (Client_Close client).1 = seq client
  ∧ pending (Client_Close client).1 = pending client.
Proof.
  pose proof (Client_Close_sets_closing client) as Hc.
  pose proof (Client_Close_keeps client) as (Hseq&Hpending&_).
  rewrite Close_times_closing by done. cbn [fst]. unfold IsAvailable. rewrite Hc.
  rewrite andb_false_r. done.
Qed.
End unavailable.

(** ** Dialling by address *)

Lemma Split_nonempty s c : Split s c ≠ [].
Proof.
  destruct s as [|a s]; simpl; [done|].
  destruct (Ascii.eqb a c); [done|]. by destruct (Split s c).
Qed.

Lemma Split_absent s c : has_byte c s = false → Split s c = [s].
Proof.
  induction s as [|a s IH]; simpl; [done|].
  intros [-> Hs]%orb_false_elim. by rewrite IH.
Qed.

Lemma Split_at pre post c :
  has_byte c pre = false → Split (pre +:+ String c post) c = pre :: Split post c.
Proof.
  induction pre as [|a pre IH].
  - intros _. rewrite append_nil_l. simpl. by rewrite Ascii.eqb_refl.
  - rewrite append_cons. simpl. intros [-> Hpre]%orb_false_elim. by rewrite IH.
Qed.

Lemma Join_cons x y l sep : Join (x :: y :: l) sep = x +:+ sep +:+ Join (y :: l) sep.
Proof. reflexivity. Qed.

(** Joining the pieces with the separator gives the string back. *)
Lemma Join_Split s c : Join (Split s c) (String c "") = s.
Proof.
  induction s as [|a s IH]; simpl; [done|].
  destruct (Ascii.eqb a c) eqn:Ha.
  - apply Ascii.eqb_eq in Ha as ->.
    pose proof (Split_nonempty s c). destruct (Split s c) as [|y l] eqn:Hs; [done|].
    rewrite Join_cons, IH. reflexivity.
  - pose proof (Split_nonempty s c). destruct (Split s c) as [|y l] eqn:Hs; [done|].
    destruct l as [|z l].
    + simpl in *. by rewrite IH.
    + rewrite Join_cons in IH. rewrite Join_cons, append_cons. by rewrite IH.
Qed.

Lemma Split_pieces s c : Forall (λ piece, has_byte c piece = false) (Split s c).
Proof.
  induction s as [|a s IH]; simpl; [by repeat constructor|].
  destruct (Ascii.eqb a c) eqn:Ha; [by constructor|].
  destruct (Split s c) as [|y l]; [by repeat constructor; simpl; rewrite Ha|].
  apply Forall_cons in IH as [Hy Hl]. constructor; [|done]. simpl. by rewrite Ha, Hy.
Qed.

(** The pieces without the separator are what [Split] finds in their join. *)
Lemma Split_Join l c :
  l ≠ [] → Forall (λ piece, has_byte c piece = false) l →
  Split (Join l (String c "")) c = l.
Proof.
  induction l as [|x l IH]; [done|]. intros _ [Hx Hl]%Forall_cons.
  destruct l as [|y l]; [by apply Split_absent|].
  rewrite Join_cons. change (String c "" +:+ Join (y :: l) (String c ""))
    with (String c (Join (y :: l) (String c ""))).
  rewrite Split_at by done. by rewrite IH.
Qed.

Section XDial_facts.
Context {ClientT : Type}.
Variable Dial : string → string → list Option → ClientT + error.
Variable DialHTTP : string → string → list Option → ClientT + error.

(** X7: [XDial] dials exactly the addresses [protocol@addr] with a single
    at sign: with the protocol [http] through [DialHTTP] on tcp, with any
    other protocol through [Dial] on that protocol. Every other address is
    refused with the wrong-format error and nothing is dialled. *)
Theorem XDial_spec (rpcAddr : string) (opts : list Option) :
  (∀ protocol addr,
     rpcAddr = protocol +:+ "@" +:+ addr →
     has_byte at_sign protocol = false →
     has_byte at_sign addr = false →
     XDial Dial DialHTTP rpcAddr opts
     = if decide (protocol = "http") then DialHTTP "tcp" addr opts
       else Dial protocol addr opts)
  ∧ ((∀ protocol addr,
        has_byte at_sign protocol = false →
        has_byte at_sign addr = false →
        rpcAddr ≠ protocol +:+ "@" +:+ addr) →
     XDial Dial DialHTTP rpcAddr opts
     = inr ("rpc client err: wrong format '" +:+ rpcAddr
            +:+ "', expect protocol@addr")).
Proof.
  split.
  - intros protocol addr -> Hp Ha. unfold XDial.
    change ("@" +:+ addr) with (String at_sign addr).
    by rewrite Split_at, (Split_absent addr) by done.
  - intros Hform. unfold XDial.
    pose proof (Join_Split rpcAddr at_sign) as Hjoin.
    pose proof (Split_pieces rpcAddr at_sign) as Hpieces.
    destruct (Split rpcAddr at_sign) as [|p [|a [|b l]]]; try done.
    apply Forall_cons in Hpieces as [Hp [Ha _]%Forall_cons].
    by destruct (Hform p a Hp Ha).
Qed.
End XDial_facts.

Lemma XDial_spec_witness :
  XDial (λ network address _, inl (network, address))
    (λ network address _, inl ("http over " +:+ network, address))
    "http@10.0.0.1:7001" []
  = (inl ("http over tcp", "10.0.0.1:7001") : (string * string) + error)
  ∧ XDial (λ network address _, inl (network, address))
      (λ network address _, inl ("http over " +:+ network, address))
      "unix@/tmp/geerpc.sock" []
    = (inl ("unix", "/tmp/geerpc.sock") : (string * string) + error).
Proof.
  split.
  - etrans.
    { apply (proj1 (XDial_spec (ClientT:=string * string)
                      (λ network address _, inl (network, address))
                      (λ network address _, inl ("http over " +:+ network, address))
                      "http@10.0.0.1:7001" []) "http" "10.0.0.1:7001");
        reflexivity. }
    reflexivity.
  - etrans.
    { apply (proj1 (XDial_spec (ClientT:=string * string)
                      (λ network address _, inl (network, address))
                      (λ network address _, inl ("http over " +:+ network, address))
                      "unix@/tmp/geerpc.sock" []) "unix" "/tmp/geerpc.sock");
        reflexivity. }
    reflexivity.
Defined.

Example XDial_wrong_format :
  XDial (λ network address _, inl (network, address))
    (λ network address _, inl ("http over " +:+ network, address))
    "10.0.0.1:7001" []
  = (inr "rpc client err: wrong format '10.0.0.1:7001', expect protocol@addr"
     : (string * string) + error)
  ∧ XDial (λ network address _, inl (network, address))
      (λ network address _, inl ("http over " +:+ network, address))
      "tcp@a@b" []
    = (inr "rpc client err: wrong format 'tcp@a@b', expect protocol@addr"
       : (string * string) + error).
Proof. split; reflexivity. Qed.

(** ** The handshake *)

Section ServeConn_spec.
Context {Value Stream C : Type} `{!Codec Value C}.
Variable Decode : Stream → Stream * (Option + error).
Variable NewGobCodec : Stream → C.

(** X8: [ServeConn] serves requests exactly when the option record is
    decoded, carries the magic number [0x3bef5c] and names the codec
    [application/gob], the one codec [init] registers; it then runs
    [serveCodec] on the gob codec over the stream. A record naming
    [application/json] is turned away like any unknown codec type. *)
Theorem ServeConn_serves_gob_only (server : Server Value) (conn : Stream)
    (start : Time) (clock : list Time) :
  (∀ res,
     ServeConn Decode NewGobCodec server conn start clock = Served res
     ↔ ∃ conn1 opt,
         Decode conn = (conn1, inl opt)
         ∧ MagicNumber opt = MagicNumber_geerpc
         ∧ CodecType opt = GobType
         ∧ res = serveCodec server (NewGobCodec conn1) opt start clock)
  ∧ (∀ conn1 opt,
       Decode conn = (conn1, inl opt) →
       MagicNumber opt = MagicNumber_geerpc →
       CodecType opt = JsonType →
       ServeConn Decode NewGobCodec server conn start clock
       = InvalidCodecType JsonType).
Proof.
  unfold ServeConn, NewCodecFuncMap. split.
  - intros res. destruct (Decode conn) as [conn1 [opt|err]]; split.
    + destruct (MagicNumber opt =? MagicNumber_geerpc) eqn:Hmagic; [|done].
      apply Z.eqb_eq in Hmagic. simpl.
      destruct (decide (CodecType opt = GobType)) as [Hgob|Hother].
      * rewrite Hgob, lookup_singleton_eq. intros [= <-].
        exists conn1, opt. by rewrite Hgob.
      * by rewrite lookup_singleton_ne.
    + intros (conn1'&opt'&[= <- <-]&Hmagic&Hgob&->).
      apply Z.eqb_eq in Hmagic. rewrite Hmagic. simpl.
      by rewrite Hgob, lookup_singleton_eq.
    + done.
    + by intros (conn1'&opt'&[=]&_).
  - intros conn1 opt -> Hmagic Hjson.
    apply Z.eqb_eq in Hmagic. rewrite Hmagic. simpl.
    rewrite Hjson. by rewrite lookup_singleton_ne.
Qed.
End ServeConn_spec.

Lemma ServeConn_serves_gob_only_witness :
  ServeConn (C:=script Z)
    (λ conn : script Z, (conn, inl (mkOption MagicNumber_geerpc JsonType 0 0)))
    (λ conn, conn) sample_server (peer (echo_request 1 5)) 0 [1]
  = InvalidCodecType JsonType.
Proof.
  apply (proj2 (ServeConn_serves_gob_only (C:=script Z)
                  (λ conn : script Z, (conn, inl (mkOption MagicNumber_geerpc JsonType 0 0)))
                  (λ conn, conn) sample_server (peer (echo_request 1 5)) 0 [1])
           (peer (echo_request 1 5)) (mkOption MagicNumber_geerpc JsonType 0 0));
    reflexivity.
Defined.

(** ** Local discovery, continued *)

Module discovery_more.
Import xclient.

Section get.
Context {Rand : Type}.
Variable Intn : Rand → Z → Z * Rand.
Implicit Types (d : MultiServersDiscovery Rand).

Lemma len_pos {A} (l : list A) : l ≠ [] → 0 < len l.
Proof. unfold len. destruct l; [done|]. simpl. lia. Qed.

Lemma go_index_elem_of {A} (l : list A) i x : go_index l i = Some x → x ∈ l.
Proof.
  unfold go_index. destruct (i <? 0); [done|]. apply list_elem_of_lookup_2.
Qed.

Lemma go_index_in_range {A} (l : list A) i :
  0 <= i < len l → is_Some (go_index l i).
Proof.
  intros Hi. unfold go_index, len in *.
  assert ((i <? 0) = false) as -> by (apply Z.ltb_ge; lia).
  apply lookup_lt_is_Some_2. lia.
Qed.

(** X9: a discovery made by [NewMultiServerDiscovery] from a non-empty
    list, with a generator whose first draw is within the bound asked
    for, answers any number [k] of consecutive [Get(RoundRobinSelect)]
    calls without error or panic; the [j]-th of them returns the server at
    position [(i0 + j) mod n], [i0] being the index drawn at
    construction. *)
Theorem constructed_discovery_round_robin (servers : list string) (r0 : Rand)
    (k : nat) :
  servers ≠ [] →
  len servers <= max_int64 →
  0 <= (Intn r0 (MaxInt32 - 1)).1 < MaxInt32 - 1 →
  ∃ out d',
    Get_times Intn k (NewMultiServerDiscovery Intn servers r0) RoundRobinSelect
    = Some (out, d')
    ∧ length out = k
    ∧ ∀ j, (j < k)%nat →
        out !! j
        = servers !! Z.to_nat (((Intn r0 (MaxInt32 - 1)).1 + Z.of_nat j)
                               `mod` len servers).
Proof.
  intros Hne Hlen Hdraw.
  assert (usable (NewMultiServerDiscovery Intn servers r0)
          ∧ xclient.servers (NewMultiServerDiscovery Intn servers r0) = servers
          ∧ index (NewMultiServerDiscovery Intn servers r0)
            = (Intn r0 (MaxInt32 - 1)).1) as (Husable&Hs&Hi).
  { unfold NewMultiServerDiscovery, usable.
    destruct (Intn r0 (MaxInt32 - 1)) as [i r1]. simpl in *.
    repeat split; try done; unfold MaxInt32, max_int64 in *; lia. }
  destruct (discovery_facts.Get_times_lookup Intn k _ Husable)
    as (out&d'&Hrun&Hout_len&Hout&_).
  exists out, d'. rewrite Hs, Hi in Hout. done.
Qed.

(** X10: [Get] never changes the list of servers. For a list whose length
    is an [int], an index that is not negative and a generator that draws
    within the bound asked for, it does not panic; it returns an error
    exactly when the list is empty or the mode is neither
    [RandomSelect] nor [RoundRobinSelect], and otherwise a server of the
    list. *)
Theorem Get_returns_a_listed_server d (mode : SelectMode) :
  len (servers d) <= max_int64 →
  0 <= index d < max_int64 →
  (0 < len (servers d) → 0 <= (Intn (r d) (len (servers d))).1 < len (servers d)) →
  ∃ s err d',
    Get Intn d mode = Some (s, err, d')
    ∧ servers d' = servers d
    ∧ (err = None → s ∈ servers d)
    ∧ (is_Some err
       ↔ servers d = [] ∨ (mode ≠ RandomSelect ∧ mode ≠ RoundRobinSelect)).
Proof.
  intros Hlen Hidx Hdraw. unfold Get.
  destruct (decide (servers d = [])) as [Hempty|Hne].
  - rewrite Hempty. simpl. eexists _, _, _. split; [done|].
    split; [done|]. split; [done|]. split; [by left|by eexists].
  - pose proof (len_pos _ Hne) as Hn.
    assert ((len (servers d) =? 0) = false) as -> by (apply Z.eqb_neq; lia).
    destruct (decide (mode = RandomSelect)) as [->|Hrandom].
    + change (RandomSelect =? RandomSelect) with true. cbv iota.
      specialize (Hdraw Hn). destruct (Intn (r d) (len (servers d))) as [i r1].
      simpl in Hdraw.
      destruct (go_index_in_range (servers d) i Hdraw) as [s Hs]. rewrite Hs.
      eexists _, _, _. split; [done|]. split; [done|].
      split; [intros _; by eapply go_index_elem_of|].
      split; [by intros [? [=]]|]. intros [?|[? _]]; done.
    + assert ((mode =? RandomSelect) = false) as -> by by apply Z.eqb_neq.
      destruct (decide (mode = RoundRobinSelect)) as [->|Hrr].
      * destruct (discovery_facts.Get_RoundRobin Intn d) as (s&Hs&Hget);
          [done|].
        unfold Get in Hget.
        assert ((len (servers d) =? 0) = false) as Hz by (apply Z.eqb_neq; lia).
        rewrite Hz in Hget.
        change (RoundRobinSelect =? RandomSelect) with false in Hget.
        rewrite Hget. eexists _, _, _. split; [done|]. split; [done|].
        split; [intros _; by eapply list_elem_of_lookup_2|].
        split; [by intros [? [=]]|]. intros [?|[_ ?]]; done.
      * assert ((mode =? RoundRobinSelect) = false) as -> by by apply Z.eqb_neq.
        eexists _, _, _. split; [done|]. split; [done|].
        split; [done|]. split; [by right|by eexists].
Qed.

(** X11: replacing the list does not disturb the round robin: after
    [Update] with a non-empty list of any length, the next
    [Get(RoundRobinSelect)] returns the server of the new list at
    [index mod n] for the new length [n], although the index may lie
    beyond the new list. *)
Theorem Get_after_Update d (servers' : list string) :
  0 <= index d < max_int64 →
  servers' ≠ [] →
  len servers' <= max_int64 →
  ∃ s,
    servers' !! Z.to_nat (index d `mod` len servers') = Some s
    ∧ Get Intn (Update d servers') RoundRobinSelect
      = Some (s, None,
              mkDiscovery Rand (r d) servers' ((index d + 1) `mod` len servers')).
Proof.
  intros Hidx Hne Hlen.
  by apply (discovery_facts.Get_RoundRobin Intn (Update d servers')).
Qed.
End get.

Lemma constructed_discovery_round_robin_witness :
  ∃ out d',
    Get_times (λ (_ : unit) _, (7, tt)) 4
      (NewMultiServerDiscovery (λ (_ : unit) _, (7, tt)) ["a"; "b"; "c"] tt)
      RoundRobinSelect
    = Some (out, d')
    ∧ length out = 4%nat.
Proof.
  assert (len ["a"; "b"; "c"] <= max_int64) as Hlen by (vm_compute; discriminate).
  assert (0 <= ((λ (_ : unit) (_ : Z), (7, tt)) tt (MaxInt32 - 1)).1 < MaxInt32 - 1)
    as Hdraw by (vm_compute; split; [discriminate|reflexivity]).
  destruct (constructed_discovery_round_robin (λ (_ : unit) _, (7, tt))
              ["a"; "b"; "c"] tt 4 ltac:(discriminate) Hlen Hdraw)
    as (out&d'&Hrun&Hout&_).
  by exists out, d'.
Defined.

Lemma Get_returns_a_listed_server_witness :
  ∃ s err d',
    Get (λ (_ : unit) _, (2, tt)) (mkDiscovery unit tt ["a"; "b"; "c"] 7) RandomSelect
    = Some (s, err, d')
    ∧ (err = None → s ∈ ["a"; "b"; "c"]).
Proof.
  assert (len ["a"; "b"; "c"] <= max_int64) as Hlen by (vm_compute; discriminate).
  assert (0 <= 7 < max_int64) as Hidx by (unfold max_int64; lia).
  destruct (Get_returns_a_listed_server (λ (_ : unit) _, (2, tt))
              (mkDiscovery unit tt ["a"; "b"; "c"] 7) RandomSelect Hlen Hidx)
    as (s&err&d'&Hget&_&Hin&_).
  { intros _. vm_compute. split; [discriminate|reflexivity]. }
  by exists s, err, d'.
Defined.

Lemma Get_after_Update_witness :
  ∃ s,
    ["x"; "y"] !! Z.to_nat (7 `mod` len ["x"; "y"]) = Some s
    ∧ Get (λ (_ : unit) _, (0, tt))
        (Update (mkDiscovery unit tt ["a"; "b"; "c"; "d"; "e"; "f"; "g"; "h"] 7)
           ["x"; "y"])
        RoundRobinSelect
      = Some (s, None, mkDiscovery unit tt ["x"; "y"] ((7 + 1) `mod` len ["x"; "y"])).
Proof.
  apply (Get_after_Update (λ (_ : unit) _, (0, tt))
           (mkDiscovery unit tt ["a"; "b"; "c"; "d"; "e"; "f"; "g"; "h"] 7)
           ["x"; "y"]).
  - unfold max_int64. simpl. lia.
  - discriminate.
  - vm_compute. discriminate.
Defined.
End discovery_more.

(** ** The registry, continued *)

Module registry_more.
Import registry registry_trace.

Lemma putServer_timeout r addr now : timeout (putServer r addr now) = timeout r.
Proof. unfold putServer. by destruct (servers r !! addr). Qed.

Lemma putServer_same r addr now :
  ∃ s, servers (putServer r addr now) !! addr = Some s ∧ start s = now
       ∧ Addr s = default addr (Addr <$> servers r !! addr).
Proof.
  unfold putServer. destruct (servers r !! addr) as [s|]; simpl;
    rewrite lookup_insert_eq; by eexists.
Qed.

Lemma putServer_other r addr now addr' :
  addr' ≠ addr → servers (putServer r addr now) !! addr' = servers r !! addr'.
Proof.
  intros Hne. unfold putServer. destruct (servers r !! addr); simpl;
    by rewrite lookup_insert_ne.
Qed.

Lemma ServeHTTP_POST r req clock now :
  Method req = "POST" →
  Header_Get (Header req) "X-Geerpc-Server" ≠ "" →
  ServeHTTP r req clock now
  = (putServer r (Header_Get (Header req) "X-Geerpc-Server") now,
     mkResponseWriter StatusOK ∅).
Proof.
  intros Hpost Haddr. unfold ServeHTTP. rewrite Hpost.
  rewrite decide_False by done. rewrite decide_True by done.
  by rewrite decide_False.
Qed.

(** X12: the registry is changed only by a [GET] and by a [POST] that names
    a server. A [POST] without the header [X-Geerpc-Server] (or with an
    empty one) is answered 500 and a request of any other method 405, and
    both leave the registry as it was. *)
Theorem ServeHTTP_refusals r req clock now :
  (Method req = "POST" →
   Header_Get (Header req) "X-Geerpc-Server" = "" →
   ServeHTTP r req clock now = (r, mkResponseWriter StatusInternalServerError ∅))
  ∧ (Method req ≠ "GET" → Method req ≠ "POST" →
     ServeHTTP r req clock now = (r, mkResponseWriter StatusMethodNotAllowed ∅)).
Proof.
  unfold ServeHTTP. split.
  - intros Hpost Hmissing. rewrite Hpost.
    rewrite decide_False by done. rewrite decide_True by done.
    by rewrite decide_True.
  - intros Hget Hpost. by rewrite !decide_False.
Qed.

Lemma ServeHTTP_refusals_witness :
  ServeHTTP sample_registry (mkRequest "POST" ∅) (λ _, 0) 0
  = (sample_registry, mkResponseWriter StatusInternalServerError ∅)
  ∧ ServeHTTP sample_registry (mkRequest "DELETE" ∅) (λ _, 0) 0
    = (sample_registry, mkResponseWriter StatusMethodNotAllowed ∅).
Proof.
  split.
  - apply (proj1 (ServeHTTP_refusals sample_registry (mkRequest "POST" ∅) (λ _, 0) 0));
      reflexivity.
  - apply (proj2 (ServeHTTP_refusals sample_registry (mkRequest "DELETE" ∅) (λ _, 0) 0));
      discriminate.
Defined.

Lemma ServeHTTP_timeout r req clock now :
  timeout (ServeHTTP r req clock now).1 = timeout r.
Proof.
  unfold ServeHTTP. repeat case_decide; try done.
  apply putServer_timeout.
Qed.

Lemma serve_all_app r l1 l2 :
  (serve_all r (l1 ++ l2)).1 = (serve_all (serve_all r l1).1 l2).1.
Proof.
  revert r. induction l1 as [|a l1 IH]; intros r; [done|].
  cbn [app serve_all]. destruct (serve r a) as [r1 w]. specialize (IH r1).
  destruct (serve_all r1 (l1 ++ l2)) as [r2 ws].
  destruct (serve_all r1 l1) as [r3 ws']. cbn [fst] in *. by rewrite IH.
Qed.

Lemma serve_all_cons r a l :
  (serve_all r (a :: l)).1 = (serve_all (serve r a).1 l).1.
Proof.
  cbn [serve_all]. destruct (serve r a) as [r1 w]. cbn [fst].
  by destruct (serve_all r1 l).
Qed.

Lemma serve_all_timeout l : ∀ r, timeout (serve_all r l).1 = timeout r.
Proof.
  induction l as [|a l IH]; intros r; [done|].
  rewrite serve_all_cons, IH. apply ServeHTTP_timeout.
Qed.

(** A request that is no heartbeat of [addr] and, if a [GET], finds the
    entry of [addr] not due, leaves that entry as it is. *)
Lemma serve_keeps_entry r a addr s :
  servers r !! addr = Some s →
  not_beat_of addr a →
  spares r addr (start s) a →
  servers (serve r a).1 !! addr = Some s.
Proof.
  intros Hs Hnot Hspare. unfold serve, ServeHTTP.
  destruct (decide (Method (request a) = "GET")) as [Hget|Hget].
  - pose proof (registry_facts.aliveServers_registry r (scan_clock a) addr s)
      as Hkept.
    destruct (aliveServers r (scan_clock a)) as [l r']. simpl in *.
    apply Hkept. split; [done|]. unfold expired.
    specialize (Hspare Hget). lia.
  - destruct (decide (Method (request a) = "POST")) as [Hpost|Hpost]; [|done].
    case_decide; [done|]. simpl. rewrite putServer_other; [done|].
    intros Heq. by apply (Hnot Hpost).
Qed.

Lemma serve_all_keeps_entry l : ∀ r addr s,
  servers r !! addr = Some s →
  Forall (not_beat_of addr) l →
  Forall (spares r addr (start s)) l →
  servers (serve_all r l).1 !! addr = Some s.
Proof.
  induction l as [|a l IH]; intros r addr s Hs Hnot Hspare; [done|].
  apply Forall_cons in Hnot as [Hnot_a Hnot].
  apply Forall_cons in Hspare as [Hspare_a Hspare].
  rewrite serve_all_cons. apply IH; [by apply serve_keeps_entry|done|].
  eapply Forall_impl; [exact Hspare|]. intros a' Ha'. unfold spares in *.
  unfold serve. by rewrite ServeHTTP_timeout.
Qed.

(** X13: a server is in the answer to a [GET] exactly when its last
    heartbeat is less than the timeout old at the reading the scan takes
    for it (or the timeout is 0), whatever the registry has served before
    that heartbeat and whatever it has served since, as long as no [GET]
    in between found the entry due. *)
Theorem listed_iff_last_beat_fresh r0 (before between : list arrival)
    (addr : string) (seen : Time) (clock : string → Time) :
  addr ≠ "" →
  Forall (not_beat_of addr) between →
  Forall (spares r0 addr seen) between →
  addr ∈ (aliveServers (serve_all r0 (before ++ beat addr seen :: between)).1 clock).1
  ↔ timeout r0 = 0 ∨ clock addr < seen + timeout r0.
Proof.
  intros Haddr Hnot Hspare.
  rewrite serve_all_app, serve_all_cons.
  set (r1 := (serve_all r0 before).1).
  assert (timeout r1 = timeout r0) as Ht1 by apply serve_all_timeout.
  assert (serve r1 (beat addr seen) = (putServer r1 addr seen, mkResponseWriter StatusOK ∅))
    as Hbeat.
  { unfold serve, beat. simpl. rewrite ServeHTTP_POST; simpl.
    - unfold Header_Get. by rewrite lookup_singleton_eq.
    - done.
    - unfold Header_Get. by rewrite lookup_singleton_eq. }
  rewrite Hbeat. cbn [fst].
  destruct (putServer_same r1 addr seen) as (s&Hs&Hstart&_).
  set (r2 := putServer r1 addr seen) in *.
  assert (timeout r2 = timeout r0) as Ht2
    by (unfold r2; by rewrite putServer_timeout).
  assert (servers (serve_all r2 between).1 !! addr = Some s) as Hkept.
  { apply serve_all_keeps_entry; [done|done|].
    eapply Forall_impl; [exact Hspare|]. intros a Ha. unfold spares in *.
    by rewrite Hstart, Ht2. }
  rewrite registry_facts.aliveServers_list. unfold expired.
  rewrite serve_all_timeout, Ht2. split.
  - intros (s'&Hs'&Hfresh). rewrite Hkept in Hs'. injection Hs' as <-. lia.
  - intros Hfresh. exists s. split; [done|]. lia.
Qed.

Lemma listed_iff_last_beat_fresh_witness :
  "b" ∈ (aliveServers
           (serve_all (New (3 * second))
              ([beat "a" 0] ++ beat "b" (5 * second)
                 :: [get (λ _, 6 * second); beat "c" (7 * second)])).1
           (λ _, 7 * second + 1)).1.
Proof.
  apply (listed_iff_last_beat_fresh (New (3 * second)) [beat "a" 0]
           [get (λ _, 6 * second); beat "c" (7 * second)] "b" (5 * second)
           (λ _, 7 * second + 1)).
  - discriminate.
  - constructor; [intros Hpost; discriminate Hpost|].
    constructor; [|constructor].
    intros _. vm_compute. intros Heq. discriminate Heq.
  - constructor; [intros _; right; vm_compute; reflexivity|].
    constructor; [|constructor].
    intros Hget. discriminate Hget.
  - right. vm_compute. reflexivity.
Defined.

(** A scan leaves the entries that it listed. *)
Lemma aliveServers_listed r clock addr :
  addr ∈ (aliveServers r clock).1 ↔ is_Some (servers (aliveServers r clock).2 !! addr).
Proof.
  rewrite registry_facts.aliveServers_list. unfold is_Some.
  by setoid_rewrite registry_facts.aliveServers_registry.
Qed.

Lemma aliveServers_timeout r clock : timeout (aliveServers r clock).2 = timeout r.
Proof. reflexivity. Qed.

(** X14: a second scan with no heartbeat in between lists no server that
    the first one dropped, whatever the readings; when the readings have
    not moved past those of the first scan it returns the same list and
    deletes nothing. After any scan the servers listed are those left in
    the registry. *)
Theorem second_scan r (clock clock' : string → Time) :
  (∀ addr, addr ∈ (aliveServers (aliveServers r clock).2 clock').1 →
           addr ∈ (aliveServers r clock).1)
  ∧ ((∀ addr, clock' addr <= clock addr) →
     aliveServers (aliveServers r clock).2 clock' = aliveServers r clock)
  ∧ (∀ addr, addr ∈ (aliveServers r clock).1
             ↔ is_Some (servers (aliveServers r clock).2 !! addr)).
Proof.
  split; [|split; [|apply aliveServers_listed]].
  - intros addr. rewrite !registry_facts.aliveServers_list.
    intros (s&Hs&_). apply registry_facts.aliveServers_registry in Hs as [Hs Hfresh].
    by exists s.
  - intros Hclock.
    assert (servers (aliveServers (aliveServers r clock).2 clock').2
            = servers (aliveServers r clock).2) as Hmap.
    { apply map_eq. intros addr. apply option_eq. intros s.
      rewrite registry_facts.aliveServers_registry. split; [by intros [? _]|].
      intros Hs. split; [done|].
      apply registry_facts.aliveServers_registry in Hs as [Hs Hfresh].
      unfold expired in *. rewrite aliveServers_timeout.
      specialize (Hclock addr). lia. }
    unfold aliveServers at 1. unfold aliveServers at 1 in Hmap.
    cbn [snd servers] in Hmap. rewrite Hmap. reflexivity.
Qed.

Lemma second_scan_witness :
  aliveServers (aliveServers sample_registry (λ _, 6 * second)).2 (λ _, 6 * second)
  = aliveServers sample_registry (λ _, 6 * second).
Proof.
  apply (proj1 (proj2 (second_scan sample_registry (λ _, 6 * second)
                         (λ _, 6 * second)))).
  intros addr. simpl. lia.
Defined.

Lemma putServer_keyed r addr now : keyed r → keyed (putServer r addr now).
Proof.
  intros Hk addr' s'. destruct (decide (addr' = addr)) as [->|Hne].
  - destruct (putServer_same r addr now) as (s&Hs&_&HAddr).
    rewrite Hs. intros [= <-]. rewrite HAddr.
    destruct (servers r !! addr) as [s0|] eqn:Hs0; simpl; [|done]. by apply Hk.
  - rewrite putServer_other by done. apply Hk.
Qed.

Lemma ServeHTTP_keyed r req clock now :
  keyed r → keyed (ServeHTTP r req clock now).1.
Proof.
  intros Hk. unfold ServeHTTP. repeat case_decide; try done.
  - intros addr s Hs.
    pose proof (registry_facts.aliveServers_registry r clock addr s) as Hkept.
    destruct (aliveServers r clock) as [l r']. simpl in *.
    apply Hkept in Hs as [Hs _]. by apply Hk.
  - by apply putServer_keyed.
Qed.

(** X15: in a registry made by [New], whatever requests it has served,
    every entry is filed under its own address ([s.Addr] is the key of [s])
    and the timeout is the one it was made with. *)
Theorem registry_entries_keyed (timeout0 : Duration) (arrivals : list arrival) :
  keyed (serve_all (New timeout0) arrivals).1
  ∧ timeout (serve_all (New timeout0) arrivals).1 = timeout0.
Proof.
  split; [|by rewrite serve_all_timeout].
  assert (∀ r, keyed r → keyed (serve_all r arrivals).1) as Hall.
  { induction arrivals as [|a l IH]; intros r Hk; [done|].
    rewrite serve_all_cons. apply IH. by apply ServeHTTP_keyed. }
  apply Hall. intros addr s. unfold New. simpl. by rewrite lookup_empty.
Qed.
End registry_more.

(** ** Discovery through the registry *)

Module registry_discovery_facts.
Import registry_discovery.

Section refresh.
Context {Rand : Type}.
Variable Intn : Rand → Z → Z * Rand.
Variable TrimSpace : string → string.
Variable http_Get : string → gmap string string + error.
Implicit Types (d : GeeRegistryDiscovery Rand).

Lemma trimmed_clean (l : list string) :
  Forall (λ s, TrimSpace s = s ∧ s ≠ "") l → trimmed TrimSpace l = l.
Proof.
  induction 1 as [|s l [Hs Hne] _ IH]; simpl; [done|].
  rewrite Hs, decide_False by done. by rewrite IH.
Qed.

Lemma Refresh_stale d now now' :
  ¬ now < lastUpdate d + timeout d →
  Refresh TrimSpace http_Get d now now'
  = match http_Get (registry d) with
    | inr err => (d, Some err)
    | inl hdr =>
        (with_servers d
           (trimmed TrimSpace
              (Split (registry.Header_Get hdr "X-Geerpc-Servers") comma)) now',
         None)
    end.
Proof.
  intros Hstale. unfold Refresh, registry.Time_After, registry.Time_Add.
  assert ((now <? lastUpdate d + timeout d) = false) as ->
    by (apply Z.ltb_ge; lia).
  done.
Qed.

(** [Refresh] on the answer of the registry to a [GET]. *)
Lemma Refresh_registry_answer d (now now' : Time)
    (r : registry.GeeRegistry) (clock : string → Time) (served_at : Time) :
  ¬ now < lastUpdate d + timeout d →
  http_Get (registry d)
  = inl (registry.header (registry.ServeHTTP r registry.GET clock served_at).2) →
  TrimSpace "" = "" →
  (∀ addr, is_Some (registry.servers r !! addr) →
           has_byte comma addr = false ∧ TrimSpace addr = addr ∧ addr ≠ "") →
  Refresh TrimSpace http_Get d now now'
  = (with_servers d (registry.aliveServers r clock).1 now', None).
Proof.
  intros Hstale Hget Hempty Hclean. rewrite Refresh_stale by done. rewrite Hget.
  rewrite registry_facts.ServeHTTP_GET by done. cbn [snd registry.header].
  unfold registry.Header_Get. rewrite lookup_singleton_eq. cbn [default].
  unfold id. f_equal. f_equal.
  set (l := (registry.aliveServers r clock).1).
  assert (Forall (λ s, has_byte comma s = false ∧ TrimSpace s = s ∧ s ≠ "") l)
    as Hl.
  { apply Forall_forall. intros addr Hin. apply Hclean.
    apply registry_facts.aliveServers_list in Hin as (s&Hs&_). by eexists. }
  destruct (decide (l = [])) as [->|Hne].
  - simpl. by rewrite Hempty, decide_True.
  - pose proof (Split_Join l comma Hne) as Hsplit.
    change (String comma "") with "," in Hsplit. rewrite Hsplit.
    + apply trimmed_clean. eapply Forall_impl; [exact Hl|].
      intros s (_&Hs&Hs'). by split.
    + eapply Forall_impl; [exact Hl|]. by intros s (Hs&_).
Qed.

(** X16: what the registry answers to a [GET] is what [Refresh] stores:
    when the cached list is out of date and the registry's addresses are
    free of commas and of surrounding white space, the discovery holds
    after [Refresh] the sorted list of the servers the registry found
    alive, and [lastUpdate] is the reading taken after the answer. *)
Theorem Refresh_stores_alive_servers d (now now' : Time)
    (r : registry.GeeRegistry) (clock : string → Time) (served_at : Time) :
  ¬ now < lastUpdate d + timeout d →
  http_Get (registry d)
  = inl (registry.header (registry.ServeHTTP r registry.GET clock served_at).2) →
  TrimSpace "" = "" →
  (∀ addr, is_Some (registry.servers r !! addr) →
           has_byte comma addr = false ∧ TrimSpace addr = addr ∧ addr ≠ "") →
  Refresh TrimSpace http_Get d now now'
  = (with_servers d (registry.aliveServers r clock).1 now', None)
  ∧ StronglySorted string_le (registry.aliveServers r clock).1.
Proof.
  intros Hstale Hget Hempty Hclean.
  split; [by apply (Refresh_registry_answer d now now' r clock served_at)|].
  apply sort_Strings_sorted.
Qed.

(** X17: while the cached list is fresh ([now] before
    [lastUpdate + timeout]) [GetAll] answers from the cache without
    asking the registry; once it is out of date, a failed request makes
    [GetAll] return that error and no list, and leaves the list and
    [lastUpdate] as they were, so that the next call asks again. *)
Theorem GetAll_cache_and_failure d (now now' : Time) :
  (now < lastUpdate d + timeout d →
   GetAll TrimSpace http_Get d now now'
   = (d, inl (xclient.servers (MultiServersDiscovery d))))
  ∧ (∀ err,
       ¬ now < lastUpdate d + timeout d →
       http_Get (registry d) = inr err →
       GetAll TrimSpace http_Get d now now' = (d, inr err)).
Proof.
  split.
  - intros Hfresh. unfold GetAll, Refresh, registry.Time_After, registry.Time_Add.
    assert ((now <? lastUpdate d + timeout d) = true) as -> by by apply Z.ltb_lt.
    done.
  - intros err Hstale Hfail. unfold GetAll.
    rewrite Refresh_stale by done. by rewrite Hfail.
Qed.

(** X18: a discovery made by [NewGeeRegistryDiscovery] has the timeout
    asked for, or ten seconds when 0 was asked for, and no cached list to
    answer from: its first [Refresh], at any reading after the Unix
    epoch, is decided by the request to the registry. *)
Theorem new_discovery_asks_registry (registerAddr : string) (timeout0 : Duration)
    (r0 : Rand) (now now' : Time) :
  int64 timeout0 →
  0 <= now →
  let d := NewGeeRegistryDiscovery Intn registerAddr timeout0 r0 in
  timeout d = (if timeout0 =? 0 then 10 * second else timeout0)
  ∧ xclient.servers (MultiServersDiscovery d) = []
  ∧ Refresh TrimSpace http_Get d now now'
    = match http_Get registerAddr with
      | inr err => (d, Some err)
      | inl hdr =>
          (with_servers d
             (trimmed TrimSpace
                (Split (registry.Header_Get hdr "X-Geerpc-Servers") comma)) now',
           None)
      end.
Proof.
  intros Hto Hnow d. split; [done|]. split.
  - unfold d, NewGeeRegistryDiscovery, xclient.NewMultiServerDiscovery. simpl.
    by destruct (Intn r0 (xclient.MaxInt32 - 1)).
  - apply Refresh_stale. unfold d, NewGeeRegistryDiscovery. simpl.
    unfold int64, min_int64, max_int64, zero_Time, defaultUpdateTimeout, second in *.
    destruct (timeout0 =? 0); lia.
Qed.
End refresh.

Lemma sample_registry_clean (addr : string) :
  is_Some (registry.servers registry.sample_registry !! addr) →
  has_byte comma addr = false ∧ TrimSpace_plain addr = addr ∧ addr ≠ "".
Proof.
  intros [s Hs].
  assert (registry.servers registry.sample_registry
          = <["b" := registry.mkServerItem "b" (5 * second)]>
              (<["c" := registry.mkServerItem "c" (4 * second)]>
                 (<["a" := registry.mkServerItem "a" 0]> ∅))) as Hmap
    by (vm_compute; reflexivity).
  rewrite Hmap in Hs.
  apply lookup_insert_Some in Hs as [[<- _]|[_ Hs]]; [by repeat split|].
  apply lookup_insert_Some in Hs as [[<- _]|[_ Hs]]; [by repeat split|].
  apply lookup_insert_Some in Hs as [[<- _]|[_ Hs]]; [by repeat split|].
  by rewrite lookup_empty in Hs.
Qed.

Lemma Refresh_stores_alive_servers_witness :
  Refresh TrimSpace_plain
    (λ _, inl (registry.header
                 (registry.ServeHTTP registry.sample_registry registry.GET
                    (λ _, 6 * second) 0).2))
    (NewGeeRegistryDiscovery (λ (_ : unit) _, (0, tt)) "http://registry" 0 tt)
    (6 * second) (6 * second + 1)
  = (with_servers
       (NewGeeRegistryDiscovery (λ (_ : unit) _, (0, tt)) "http://registry" 0 tt)
       ["b"; "c"] (6 * second + 1),
     None).
Proof.
  etrans.
  { apply (Refresh_stores_alive_servers TrimSpace_plain
             (λ _, inl (registry.header
                          (registry.ServeHTTP registry.sample_registry registry.GET
                             (λ _, 6 * second) 0).2))
             (NewGeeRegistryDiscovery (λ (_ : unit) _, (0, tt)) "http://registry" 0 tt)
             (6 * second) (6 * second + 1) registry.sample_registry
             (λ _, 6 * second) 0).
    - vm_compute. intros H. discriminate H.
    - reflexivity.
    - reflexivity.
    - exact sample_registry_clean. }
  vm_compute. reflexivity.
Defined.

Lemma GetAll_cache_and_failure_witness :
  GetAll TrimSpace_plain (λ _, inr "connection refused")
    (with_servers
       (NewGeeRegistryDiscovery (λ (_ : unit) _, (0, tt)) "http://registry" 0 tt)
       ["b"; "c"] 100)
    (100 + 10 * second) (101 + 10 * second)
  = (with_servers
       (NewGeeRegistryDiscovery (λ (_ : unit) _, (0, tt)) "http://registry" 0 tt)
       ["b"; "c"] 100,
     inr "connection refused").
Proof.
  apply (proj2 (GetAll_cache_and_failure TrimSpace_plain (λ _, inr "connection refused")
                  (with_servers
                     (NewGeeRegistryDiscovery (λ (_ : unit) _, (0, tt))
                        "http://registry" 0 tt)
                     ["b"; "c"] 100)
                  (100 + 10 * second) (101 + 10 * second))).
  - vm_compute. intros H. discriminate H.
  - reflexivity.
Defined.

Lemma new_discovery_asks_registry_witness :
  Refresh TrimSpace_plain (λ _, inr "connection refused")
    (NewGeeRegistryDiscovery (λ (_ : unit) _, (0, tt)) "http://registry" 0 tt) 0 1
  = (NewGeeRegistryDiscovery (λ (_ : unit) _, (0, tt)) "http://registry" 0 tt,
     Some "connection refused").
Proof.
  apply (new_discovery_asks_registry (λ (_ : unit) _, (0, tt)) TrimSpace_plain
           (λ _, inr "connection refused") "http://registry" 0 tt 0 1).
  - vm_compute. split; discriminate.
  - lia.
Defined.
End registry_discovery_facts.

(** ** The client cache *)

Module xclient_cache_facts.
Import xclient_cache.

Section cache.
Context {Value C : Type} `{!Codec Value C}.
Variable Dial : string → string → list Option → Client Value C + error.
Variable DialHTTP : string → string → list Option → Client Value C + error.
Implicit Types (xc : XClient Value C) (client : Client Value C).

(** A cached client that is available is returned as it is. *)
Lemma dial_hit xc rpcAddr client :
  clients xc !! rpcAddr = Some client →
  IsAvailable client = true →
  dial Dial DialHTTP xc rpcAddr = (xc, inl client).
Proof.
  intros Hc Ha. unfold dial. rewrite Hc, Ha. simpl. by destruct xc.
Qed.

(** A cached client that is not available is closed and removed, and the
    address is dialled again. *)
Lemma dial_stale xc rpcAddr client :
  clients xc !! rpcAddr = Some client →
  IsAvailable client = false →
  dial Dial DialHTTP xc rpcAddr
  = match XDial Dial DialHTTP rpcAddr [xc_opt xc] with
    | inr err =>
        (mkXClient Value C (mode xc) (xc_opt xc) (delete rpcAddr (clients xc))
           (removed xc ++ [(Client_Close client).1]),
         inr err)
    | inl fresh =>
        (mkXClient Value C (mode xc) (xc_opt xc)
           (<[rpcAddr := fresh]> (delete rpcAddr (clients xc)))
           (removed xc ++ [(Client_Close client).1]),
         inl fresh)
    end.
Proof. intros Hc Ha. unfold dial. by rewrite Hc, Ha. Qed.

Lemma dial_miss xc rpcAddr :
  clients xc !! rpcAddr = None →
  dial Dial DialHTTP xc rpcAddr
  = match XDial Dial DialHTTP rpcAddr [xc_opt xc] with
    | inr err => (xc, inr err)
    | inl fresh =>
        (mkXClient Value C (mode xc) (xc_opt xc) (<[rpcAddr := fresh]> (clients xc))
           (removed xc),
         inl fresh)
    end.
Proof.
  intros Hc. unfold dial. rewrite Hc.
  destruct (XDial _ _ _ _); by destruct xc.
Qed.

(** X19: after [dial(rpcAddr)] the cache holds under [rpcAddr] exactly
    the client returned, and nothing when an error is returned; the
    entries of other addresses are as before. A cached client that is
    available is returned without dialling and nothing changes; one that
    is not available is closed and taken out of the cache before the
    address is dialled anew, also when that dial fails. *)
Theorem dial_keeps_cache_and_result_in_step xc (rpcAddr : string) :
  (∀ other, other ≠ rpcAddr →
     clients (dial Dial DialHTTP xc rpcAddr).1 !! other = clients xc !! other)
  ∧ (∀ client, (dial Dial DialHTTP xc rpcAddr).2 = inl client →
       clients (dial Dial DialHTTP xc rpcAddr).1 !! rpcAddr = Some client)
  ∧ (∀ err, (dial Dial DialHTTP xc rpcAddr).2 = inr err →
       clients (dial Dial DialHTTP xc rpcAddr).1 !! rpcAddr = None)
  ∧ (∀ client, clients xc !! rpcAddr = Some client → IsAvailable client = true →
       dial Dial DialHTTP xc rpcAddr = (xc, inl client))
  ∧ (∀ client, clients xc !! rpcAddr = Some client → IsAvailable client = false →
       removed (dial Dial DialHTTP xc rpcAddr).1
       = removed xc ++ [(Client_Close client).1]
       ∧ (dial Dial DialHTTP xc rpcAddr).2 = XDial Dial DialHTTP rpcAddr [xc_opt xc]).
Proof.
  destruct (clients xc !! rpcAddr) as [cached|] eqn:Hc;
    [destruct (IsAvailable cached) eqn:Ha|].
  - rewrite (dial_hit _ _ _ Hc Ha). simpl.
    split; [done|]. split; [by intros ? [= <-]|]. split; [done|].
    split; [by intros ? [= <-] _|]. intros ? [= <-] ?. congruence.
  - rewrite (dial_stale _ _ _ Hc Ha).
    destruct (XDial Dial DialHTTP rpcAddr [xc_opt xc]) as [fresh|err]; simpl.
    + split; [intros other Hne; by rewrite lookup_insert_ne, lookup_delete_ne|].
      split; [intros ? [= <-]; by rewrite lookup_insert_eq|]. split; [done|].
      split; [intros ? [= <-] ?; congruence|]. by intros ? [= <-] _.
    + split; [intros other Hne; by rewrite lookup_delete_ne|].
      split; [done|]. split; [intros ? _; by rewrite lookup_delete_eq|].
      split; [intros ? [= <-] ?; congruence|]. by intros ? [= <-] _.
  - rewrite (dial_miss _ _ Hc).
    destruct (XDial Dial DialHTTP rpcAddr [xc_opt xc]) as [fresh|err]; simpl.
    + split; [intros other Hne; by rewrite lookup_insert_ne|].
      split; [intros ? [= <-]; by rewrite lookup_insert_eq|]. done.
    + done.
Qed.

(** X20: [XClient.Close] returns nil and empties the cache; every client
    that was cached has been closed and is unavailable from then on, and
    a [dial] that follows finds nothing cached and dials. *)
Theorem XClient_Close_empties_cache xc :
  (XClient_Close xc).2 = None
  ∧ clients (XClient_Close xc).1 = ∅
  ∧ (∀ addr client, clients xc !! addr = Some client →
       (Client_Close client).1 ∈ removed (XClient_Close xc).1
       ∧ IsAvailable (Client_Close client).1 = false)
  ∧ (∀ rpcAddr,
       (dial Dial DialHTTP (XClient_Close xc).1 rpcAddr).2
       = XDial Dial DialHTTP rpcAddr [xc_opt xc]).
Proof.
  split; [done|]. split; [done|]. split.
  - intros addr client Hc. split.
    + unfold XClient_Close. simpl. apply elem_of_app. right.
      apply list_elem_of_fmap. exists (addr, client). split; [done|].
      by apply elem_of_map_to_list.
    + unfold IsAvailable. unfold Client_Close.
      destruct (closing client) eqn:Hclosing.
      * simpl. by rewrite Hclosing, andb_false_r.
      * destruct (Close (client_cc client)). simpl. by rewrite andb_false_r.
  - intros rpcAddr. rewrite dial_miss by done. simpl.
    by destruct (XDial Dial DialHTTP rpcAddr [xc_opt xc]).
Qed.
End cache.
End xclient_cache_facts.

(** ** Broadcast, continued *)

Module broadcast_more.
Import xclient.

Section broadcast.
Context {Value : Type}.
Implicit Types (s : bstate Value) (log : list (string * call_result Value)).
Implicit Types (init : option Value).

Lemma first_error_None log :
  first_error log = None ↔ Forall (λ x, ∃ v, x.2 = CallOk v) log.
Proof.
  induction log as [|[a [v|err]] log IH]; simpl.
  - split; [constructor|done].
  - rewrite IH. split; [intros ?; constructor; [by eexists|done]|].
    by intros [_ ?]%Forall_cons.
  - split; [done|]. by intros [[? [=]] _]%Forall_cons.
Qed.

Lemma critical_running s res : running (critical s res) = running s.
Proof.
  unfold critical. destruct res, (e s); simpl; try done;
    by destruct (replyDone s).
Qed.

Lemma critical_finished s res : finished (critical s res) = finished s.
Proof.
  unfold critical. destruct res, (e s); simpl; try done;
    by destruct (replyDone s).
Qed.

(** The branches can finish in the order of the list, whatever their
    calls return. *)
Lemma run_in_order (results : list (call_result Value)) : ∀ s,
  length results = length (running s) →
  ∃ s', rtc bstep s s' ∧ running s' = []
        ∧ finished s' = finished s ++ zip (running s) results.
Proof.
  induction results as [|res results IH]; intros s Hlen.
  - exists s. destruct (running s); [|done]. simpl. by rewrite app_nil_r.
  - destruct (running s) as [|rpcAddr rest] eqn:Hrun; [done|].
    set (s1 := finish s [] rest rpcAddr res).
    assert (running s1 = rest) as Hrun1 by (unfold s1, finish; by rewrite critical_running).
    assert (finished s1 = finished s ++ [(rpcAddr, res)]) as Hfin1
      by (unfold s1, finish; by rewrite critical_finished).
    destruct (IH s1) as (s'&Hsteps&Hnone&Hfin).
    { rewrite Hrun1. simpl in Hlen. lia. }
    exists s'. split; [|split; [done|]].
    + eapply rtc_l; [|exact Hsteps]. by apply (branch_returns s [] rpcAddr rest res).
    + rewrite Hfin, Hfin1, Hrun1. simpl. by rewrite <-(assoc_L (++)).
Qed.

(** X21: [Broadcast] returns, whatever the calls of its branches return:
    for every list of servers and every result per server there is a run
    in which the branches finish with these results, and it returns the
    first error among them (nil if there is none) - without servers, nil
    at once. *)
Theorem Broadcast_returns (servers : list string) init
    (results : list (call_result Value)) :
  length results = length servers →
  ∃ s,
    Broadcast (inl servers) init s (first_error (zip servers results))
    ∧ finished s = zip servers results.
Proof.
  intros Hlen.
  destruct (run_in_order results (launched servers init)) as (s&Hsteps&Hnone&Hfin);
    [done|].
  simpl in Hfin. exists s. split; [|done].
  pose proof (xclient_facts.reachable_inv servers init s Hsteps) as (_&He&_).
  rewrite <-Hfin, <-He. by eapply Broadcast_waited.
Qed.

(** X22: [Broadcast] returns nil exactly when [GetAll] succeeded and the
    call of every branch did; with a nil [reply] nothing is ever assigned
    through it, whatever the branches return. *)
Theorem Broadcast_nil_result_and_nil_reply getall init s ret :
  Broadcast getall init s ret →
  (ret = None
   ↔ (∃ servers, getall = inl servers)
     ∧ Forall (λ x, ∃ v, x.2 = CallOk v) (finished s))
  ∧ (init = None → sets s = 0%nat ∧ reply s = None).
Proof.
  intros Hb. destruct Hb as [err ->|servers s -> Hrun Hend].
  - split; [|done]. split; [done|]. by intros [[? [=]] _].
  - apply xclient_facts.reachable_inv in Hrun as (_&He&_&Hreply).
    split.
    + rewrite He, first_error_None. split; [|by intros [_ ?]].
      intros ?. split; [by eexists|done].
    + intros ->. by destruct Hreply as (_&?&?).
Qed.
End broadcast.

Lemma Broadcast_returns_witness :
  ∃ s : bstate Z,
    Broadcast (inl ["a"; "b"]) (Some 0) s (Some "boom")
    ∧ finished s = [("a", CallErr "boom"); ("b", CallOk 7)].
Proof.
  apply (Broadcast_returns ["a"; "b"] (Some 0) [CallErr "boom"; CallOk 7]).
  reflexivity.
Defined.

Lemma Broadcast_nil_result_and_nil_reply_witness :
  ∃ s : bstate Z,
    Broadcast (inl ["a"; "b"]) None s None
    ∧ sets s = 0%nat ∧ reply s = None.
Proof.
  destruct (run_in_order [CallOk 5; CallOk 7] (launched ["a"; "b"] (None : option Z)))
    as (s&Hsteps&Hnone&Hfin); [reflexivity|].
  pose proof (xclient_facts.reachable_inv ["a"; "b"] None s Hsteps) as (_&He&_).
  assert (Broadcast (inl ["a"; "b"]) None s None) as Hb.
  { replace (None : option error) with (e s).
    - by eapply Broadcast_waited.
    - rewrite He, Hfin. reflexivity. }
  exists s. split; [exact Hb|].
  by apply (proj2 (Broadcast_nil_result_and_nil_reply _ _ _ _ Hb)).
Defined.
End broadcast_more.

(** ** Admission by the request loop *)

Section admission.
Context {Value C : Type} `{!Codec Value C}.
Implicit Types (server : Server Value) (st : conn (Value:=Value) (C:=C)).

(** What an iteration does to the workers, by the answer of [Allow]. *)
Lemma serveCodec_iter_workers server opt st now :
  match serveCodec_iter server opt st now with
  | Continue st' | Break st' =>
      ∃ ok, Allow (tb st) now = Some (ok, tb st')
            ∧ (length (workers st') <= length (workers st) + (if ok then 1 else 0))%nat
  | Panic => True
  end.
Proof.
  unfold serveCodec_iter.
  destruct (Allow (tb st) now) as [[[|] tb']|]; [| |done].
  - destruct (readRequest server (cc st)) as [[[cc1 req] err]|]; [|done].
    destruct err as [err|]; [destruct req as [req|]|]; simpl;
      exists true; (split; [done|]); rewrite ?length_app; simpl; lia.
  - exists false. simpl. split; [done|lia].
Qed.

Lemma serveCodec_loop_workers server opt a T clock : ∀ st,
  Forall (λ t, a <= t <= a + T) clock →
  match serveCodec_loop server opt st clock with
  | Closed st' | Running st' =>
      Z.of_nat (length (workers st'))
      <= Z.of_nat (length (workers st)) + accepted_in a T (allow_run (tb st) clock)
  | Panicked => True
  end.
Proof.
  induction clock as [|now clock IH]; intros st Hwin; simpl.
  - rewrite accepted_in_nil. lia.
  - apply Forall_cons in Hwin as [Hnow Hwin].
    pose proof (serveCodec_iter_workers server opt st now) as Hiter.
    destruct (serveCodec_iter server opt st now) as [st'|st'|]; [| |done].
    + destruct Hiter as (ok&Hallow&Hgrow). rewrite Hallow, accepted_in_cons.
      specialize (IH st' Hwin).
      destruct (serveCodec_loop server opt st' clock) as [st''|st''|]; [| |done].
      all: unfold in_window; cbn [fst snd];
        assert ((a <=? now) = true) as -> by (apply Z.leb_le; lia);
        assert ((now <=? a + T) = true) as -> by (apply Z.leb_le; lia);
        destruct ok; simpl in *; lia.
    + destruct Hiter as (ok&Hallow&Hgrow). rewrite Hallow, accepted_in_cons. simpl.
      pose proof (accepted_in_cons a T (now, ok) []) as Hnonneg.
      assert (0 <= accepted_in a T (allow_run (tb st') clock))
        by (unfold accepted_in; lia).
      unfold in_window; simpl.
      assert ((a <=? now) = true) as -> by (apply Z.leb_le; lia).
      assert ((now <=? a + T) = true) as -> by (apply Z.leb_le; lia).
      destruct ok; simpl in *; lia.
Qed.

(** X23: a connection gets at most [10 + 2 * floor(T / 1 s)] workers in
    the first [T] nanoseconds after its bucket is made: whatever the codec
    reads, [serveCodec] has launched no more than that many requests when
    its loop has run through clock readings that do not go backwards and lie
    in that time. *)
Theorem serveCodec_launches_within_rate server (cc0 : C) opt (start : Time)
    (clock : list Time) (T : Z) :
  StronglySorted Z.le (start :: clock) →
  Forall (λ t, t <= start + T) clock →
  0 <= T →
  match serveCodec server cc0 opt start clock with
  | Closed st | Running st =>
      Z.of_nat (length (workers st)) <= 10 + 2 * (T / second)
  | Panicked => False
  end.
Proof.
  intros Hsorted Hend HT. unfold serveCodec.
  set (st0 := mkConn cc0 (NewTokenBucket 10 2 second start) []).
  assert (bucket_of 10 2 second (tb st0)) as Hgood by (repeat split; simpl; lia).
  pose proof (serveCodec_loop_no_panic server opt clock st0 Hgood) as Hpanic.
  assert (Forall (λ t, start <= t <= start + T) clock) as Hwin.
  { apply StronglySorted_inv in Hsorted as [_ Hfrom].
    apply Forall_forall. intros t Ht.
    rewrite Forall_forall in Hfrom, Hend. split; [by apply Hfrom|by apply Hend]. }
  pose proof (serveCodec_loop_workers server opt start T clock st0 Hwin) as Hworkers.
  assert (accepted_in start T (allow_run (tb st0) clock) <= 10 + 2 * (T / second))
    as Hbound.
  { pose proof (accepted_upto 10 2 second ltac:(lia) ltac:(lia)) as Hup.
    specialize (Hup ltac:(vm_compute; split; [reflexivity|discriminate])
                    ltac:(vm_compute; discriminate) start T clock (tb st0) Hgood).
    simpl in Hup. replace (start + T - start) with T in Hup by lia.
    apply Hup; [done|lia]. }
  destruct (serveCodec_loop server opt st0 clock) as [st|st|]; [| |done].
  all: subst st0; cbn [tb workers length] in *; lia.
Qed.
End admission.

Lemma serveCodec_launches_within_rate_witness :
  match serveCodec sample_server (peer eleven_requests) DefaultOption 0 (replicate 11 1)
  with
  | Closed st | Running st => Z.of_nat (length (workers st)) <= 10 + 2 * (1 / second)
  | Panicked => False
  end.
Proof.
  apply (serveCodec_launches_within_rate sample_server (peer eleven_requests)
           DefaultOption 0 (replicate 11 1) 1).
  - vm_compute. repeat (constructor; [|repeat constructor; discriminate]). constructor.
  - vm_compute. repeat constructor; discriminate.
  - lia.
Defined.

(** ** From the registry to the choice of a server *)

Module registry_choice.
Import registry_discovery.

Section choice.
Context {Rand : Type}.
Variable Intn : Rand → Z → Z * Rand.
Variable TrimSpace : string → string.
Variable http_Get : string → gmap string string + error.
Implicit Types (d : GeeRegistryDiscovery Rand).

(** X24: a [Get(RoundRobinSelect)] on a discovery whose list is out of
    date returns a server that the registry has just found alive: the
    server is in the registry and its entry was not due for eviction at
    the reading of the scan. (The addresses are free of commas and of
    surrounding white space, some server is alive, and the index of the
    discovery is one it can hold.) *)
Theorem Get_returns_an_alive_server d (now now' : Time)
    (r : registry.GeeRegistry) (clock : string → Time) (served_at : Time) :
  ¬ now < lastUpdate d + timeout d →
  http_Get (registry d)
  = inl (registry.header (registry.ServeHTTP r registry.GET clock served_at).2) →
  TrimSpace "" = "" →
  (∀ addr, is_Some (registry.servers r !! addr) →
           has_byte comma addr = false ∧ TrimSpace addr = addr ∧ addr ≠ "") →
  (registry.aliveServers r clock).1 ≠ [] →
  len (registry.aliveServers r clock).1 <= max_int64 →
  0 <= xclient.index (MultiServersDiscovery d) < max_int64 →
  ∃ s d',
    Get Intn TrimSpace http_Get d xclient.RoundRobinSelect now now'
    = Some (s, None, d')
    ∧ lastUpdate d' = now'
    ∧ ∃ item, registry.servers r !! s = Some item
              ∧ ¬ registry.expired r item (clock s).
Proof.
  intros Hstale Hget Hempty Hclean Hne Hlen Hidx. unfold Get.
  rewrite (registry_discovery_facts.Refresh_registry_answer
             TrimSpace http_Get d now now' r clock served_at) by done.
  set (l := (registry.aliveServers r clock).1) in *.
  destruct (discovery_facts.Get_RoundRobin Intn
              (xclient.Update (MultiServersDiscovery d) l)) as (s&Hs&Hrr);
    [done|].
  cbn [with_servers MultiServersDiscovery]. rewrite Hrr.
  eexists _, _. split; [done|]. split; [done|].
  apply registry_facts.aliveServers_list.
  simpl in Hs. by eapply list_elem_of_lookup_2.
Qed.
End choice.

Lemma Get_returns_an_alive_server_witness :
  ∃ s d',
    Get (λ (_ : unit) _, (0, tt)) TrimSpace_plain
      (λ _, inl (registry.header
                   (registry.ServeHTTP registry.sample_registry registry.GET
                      (λ _, 6 * second) 0).2))
      (NewGeeRegistryDiscovery (λ (_ : unit) _, (0, tt)) "http://registry" 0 tt)
      xclient.RoundRobinSelect (6 * second) (6 * second + 1)
    = Some (s, None, d')
    ∧ lastUpdate d' = 6 * second + 1
    ∧ ∃ item, registry.servers registry.sample_registry !! s = Some item
              ∧ ¬ registry.expired registry.sample_registry item (6 * second).
Proof.
  apply (Get_returns_an_alive_server (λ (_ : unit) _, (0, tt)) TrimSpace_plain
           (λ _, inl (registry.header
                        (registry.ServeHTTP registry.sample_registry registry.GET
                           (λ _, 6 * second) 0).2))
           (NewGeeRegistryDiscovery (λ (_ : unit) _, (0, tt)) "http://registry" 0 tt)
           (6 * second) (6 * second + 1) registry.sample_registry
           (λ _, 6 * second) 0).
  - vm_compute. intros H. discriminate H.
  - reflexivity.
  - reflexivity.
  - exact registry_discovery_facts.sample_registry_clean.
  - vm_compute. discriminate.
  - vm_compute. discriminate.
  - vm_compute. split; [discriminate|reflexivity].
Defined.
End registry_choice.
